(** * DeepScan: the dissectors emitted by [pythonscripts/gen_diss2.py]

    [gen_diss2.py] reads a DPI description (protocol name, and per IP an
    ordered dictionary of fields) and writes Lua dissectors: one per IP, with
    DPI tests, and one "static" dissector built from the first IP's fields.
    The Python loops run at generation time and unroll into straight-line Lua,
    one block per field; what is verified here is the behaviour of that Lua
    on a packet buffer, as a function of the field dictionary.

    Modelling conventions.
    - Sizes, counts and decoded unsigned integers are naturals ([N]);
      arithmetic is exact.
    - The host is Wireshark's Lua API.  [buffer(offset, n):uint()] reads a
      big-endian unsigned integer from a range of 1 to 4 bytes and raises on
      any other length.  [:uint64()] accepts 1 to 8 bytes and returns a
      [UInt64] object, which is not a Lua number: it prints in decimal and is
      ordered against a number by the host, and [math.floor] and the [bit]
      library reject it.
    - A text read by [:string()] is kept as the bytes of its range; how they
      are decoded (as ASCII) belongs to the Lua host ([LuaHost]).
    - The [bit] library works on 32 bits: an argument is reduced modulo
      [2 ^ 32], a shift count modulo 32, and a result is a signed 32-bit
      number.  A number with an integer value prints as that integer.
    - Lua's [/] is float division: its result is kept as the pair it divides,
      and [1 << x] raises when [x] has no integer value.
    - A floating-point value is kept as the bytes it was unpacked from; its
      text and its order against a bound belong to the Lua host ([LuaHost]).
    - Field names are Lua identifiers that differ from the names the emitted
      dissector declares for itself ([buffer], [offset], [subtree], ...).
    - The [print] calls (debugging output) and the tree items are not part of
      the state; the expert infos added to the tree are. *)

From Stdlib Require Import ZArith NArith List String Ascii Lia.
From Stdlib Require Import DecimalString DecimalN DecimalPos.
From Stdlib.Strings Require Import Byte.
From stdpp Require Import gmap strings list fin_maps sorting.

Local Open Scope string_scope.

(** ** The DPI description *)

(** [info["field_type"]]: the strings the generator tests for; every other
    string takes the generator's final [else] branches. *)
Inductive FieldType :=
| FT_bool | FT_int | FT_float | FT_double | FT_long | FT_char | FT_bitfield
| FT_other.

(** One entry [info] of the dictionary [fields]. *)
Record FieldInfo := {
  field_type : FieldType;
  min_size : N;
  max_size : N;
  is_dynamic_array : bool;
  size_defining_field : string;
  min_value : option Z;
  max_value : option Z;
  bitfields_count : option N
}.

(** [fields.items()]: names with their entries, in declaration order. *)
Definition FieldList := list (string * FieldInfo).

(** [ftype in ["int", "bool", "long"]] *)
Definition integer_like (t : FieldType) : bool :=
  match t with FT_int | FT_bool | FT_long => true | _ => false end.

(** [ftype in ["int", "bool", "long", "float", "double"]] *)
Definition range_checked (t : FieldType) : bool :=
  match t with
  | FT_int | FT_bool | FT_long | FT_float | FT_double => true
  | _ => false
  end.

(** [bitfields_count is not None and bitfields_count]: the count when the
    decomposition code is emitted. *)
Definition decomposition_count (info : FieldInfo) : option N :=
  match bitfields_count info with
  | Some c => if (c =? 0)%N then None else Some c
  | None => None
  end.

(** Decimal text of a natural (Python's [str], Lua's [..] and [tostring]). *)
Definition dec (n : N) : string := NilZero.string_of_uint (N.to_uint n).

(** [f"{info['bitfields_count']}"] *)
Definition py_str (c : option N) : string :=
  match c with Some n => dec n | None => "None" end.

(** ** Generation time: field declarations and accessors *)

Inductive ProtoFieldType :=
| PF_uint8 | PF_uint16 | PF_uint32 | PF_uint64 | PF_int32
| PF_float | PF_double | PF_string.

(** The [if size == 1 ... else] chain of the [int] and [bitfield] cases. *)
Definition unsigned_by_size (size : N) : ProtoFieldType :=
  if (size =? 1)%N then PF_uint8
  else if (size =? 2)%N then PF_uint16
  else if (size =? 4)%N then PF_uint32
  else if (size =? 8)%N then PF_uint64
  else PF_uint32.

(** The [ProtoField] constructor written for [local f_<name>]. *)
Definition proto_field_type (info : FieldInfo) : ProtoFieldType :=
  match field_type info with
  | FT_bool => PF_uint8
  | FT_int => unsigned_by_size (min_size info)
  | FT_float => PF_float
  | FT_double => PF_double
  | FT_long => if (min_size info =? 8)%N then PF_uint64 else PF_int32
  | FT_char => PF_string
  | FT_bitfield => unsigned_by_size (min_size info)
  | FT_other => PF_string
  end.

(** The method called on the field's [TvbRange]. *)
Inductive Accessor :=
| A_uint | A_uint64 | A_unpack_float | A_unpack_double | A_string.

Definition accessor (info : FieldInfo) : Accessor :=
  match field_type info with
  | FT_bitfield | FT_int | FT_bool | FT_long =>
      if (min_size info =? 8)%N then A_uint64 else A_uint
  | FT_float => A_unpack_float
  | FT_double => A_unpack_double
  | FT_char | FT_other => A_string
  end.

(** [generate_field_list]: the entries of [<proto>.fields]. *)
Definition bf_suffix (i : N) : string := "_bf" +:+ dec i.

Definition generate_field_list (fields : FieldList) : list string :=
  flat_map (fun '(field_name, info) =>
    ("f_" +:+ field_name) ::
    match field_type info, decomposition_count info with
    | FT_bitfield, _ | _, None => []
    | _, Some c =>
        map (fun i => "f_" +:+ field_name +:+ bf_suffix (N.of_nat i))
            (seq 0 (N.to_nat c))
    end) fields.

(** ** Run time: values and helpers of the emitted Lua *)

(** What a table entry or a variable holds: a number that is not negative,
    a string built by the dissector, a float (the bytes [string.unpack]
    read), a [UInt64] object, a negative number (a result of the [bit]
    library), or a text read by [:string()] (the bytes of its range). *)
Inductive ParsedValue :=
| PNum (n : N)
| PStr (s : string)
| PFloat (raw : list byte)
| PU64 (n : N)
| PNeg (p : positive)
| PText (raw : list byte).

(** A Lua number with an integer value. *)
Definition number (z : Z) : ParsedValue :=
  match z with
  | Zneg p => PNeg p
  | _ => PNum (Z.to_N z)
  end.

(** What the Lua host decides about floating-point values, about the
    order of a [UInt64] object against a number, and about the decoding of
    a text. *)
Record LuaHost := {
  float_text : list byte -> string;
  float_lt : list byte -> Z -> bool;
  float_gt : list byte -> Z -> bool;
  uint64_lt : N -> Z -> bool;
  uint64_gt : N -> Z -> bool;
  range_text : list byte -> string
}.

Definition tostring (host : LuaHost) (v : ParsedValue) : string :=
  match v with
  | PNum n => dec n
  | PStr s => s
  | PFloat raw => float_text host raw
  | PU64 n => dec n
  | PNeg p => "-" +:+ dec (Npos p)
  | PText raw => range_text host raw
  end.

(** [buffer(offset, len)] *)
Definition tvb_range (buffer : list byte) (off len : N) : list byte :=
  take (N.to_nat len) (drop (N.to_nat off) buffer).

(** The bytes of a range as a big-endian unsigned integer. *)
Definition be_uint (bs : list byte) : N :=
  fold_left (fun acc b => (acc * 256 + Byte.to_N b)%N) bs 0%N.

(** [:bytes():raw()]: the bytes as they are. *)
Definition string_of_bytes (bs : list byte) : string :=
  string_of_list_ascii (map ascii_of_byte bs).

(** The [bit] library: an argument is taken modulo [2 ^ 32], a shift count
    modulo 32, and the result is read as a signed 32-bit number. *)
Definition tobit (z : Z) : N := Z.to_N (z mod 2 ^ 32).

Definition signed32 (n : N) : Z :=
  if (n <? 2 ^ 31)%N then Z.of_N n else (Z.of_N n - 2 ^ 32)%Z.

(** [bit.rshift(x, n)] *)
Definition bit_rshift (x n : Z) : Z :=
  signed32 (N.shiftr (tobit x) (tobit n mod 32)).

(** [bit.band(a, b)] *)
Definition bit_band (a b : Z) : Z :=
  signed32 (N.land (tobit a) (tobit b)).

(** [popcount]: [while x > 0 do count = count + (x % 2); x = math.floor(x / 2)
    end]; one iteration per binary digit of [x]. *)
Fixpoint popcount_loop (x : positive) (count : N) : N :=
  match x with
  | xH => (count + 1)%N
  | xO x' => popcount_loop x' (count + 0)%N
  | xI x' => popcount_loop x' (count + 1)%N
  end.

Definition popcount (x : N) : N :=
  match x with
  | N0 => 0%N
  | Npos p => popcount_loop p 0%N
  end.

(** [to_binary_str]: [for i = bits - 1, 0, -1 do ... end]; [todo] is [i + 1].
    [num] is a number here: a [UInt64] object is rejected by [bit.rshift]
    before the loop appends anything. *)
Fixpoint to_binary_loop (num : N) (todo : nat) (s : string) : string :=
  match todo with
  | O => s
  | S i =>
      let bit_val := bit_rshift (Z.of_N num) (Z.of_nat i) in
      to_binary_loop num i
        (s +:+ (if (bit_band bit_val 1 =? 1)%Z then "1" else "0"))
  end.

Definition to_binary_str (num bits : N) : string :=
  to_binary_loop num (N.to_nat bits) "".

(** ** Run time: the state of one dissector call *)

(** The expert infos a dissector attaches: four diagnostics of the field
    blocks ([PI_MALFORMED]) and the closing "DPI Error in this packet" of the
    per-IP dissector ([PI_PROTOCOL]). *)
Inductive ErrKind :=
| InsufficientBytes
| DynamicLengthOutOfRange
| ValueOutOfRange
| BitPopulationMismatch
| ProtocolError.

(** The variables of one call of [<proto>.dissector].  [locals] holds the
    [local]s declared by the field blocks, most recent first, with the decoded
    value they hold ([None] for a tree item).  In the static dissector
    [parsed_values] is the table [field_values], and [dpi_error] is the global
    of that name, since the static function declares neither [dpi_error] nor
    [error_messages]. *)
Record DState := {
  offset : N;
  dpi_error : bool;
  error_messages : list string;
  parsed_values : gmap string ParsedValue;
  expert : list (ErrKind * string);
  locals : list (string * option ParsedValue)
}.

Definition initial_state : DState :=
  {| offset := 0; dpi_error := false; error_messages := [];
     parsed_values := ∅; expert := []; locals := [] |}.

(** [<item>:add_expert_info(<group>, PI_ERROR, msg)] *)
Definition add_expert (k : ErrKind) (msg : string) (st : DState) : DState :=
  {| offset := offset st; dpi_error := dpi_error st;
     error_messages := error_messages st;
     parsed_values := parsed_values st;
     expert := expert st ++ [(k, msg)]; locals := locals st |}.

(** [dpi_error = true] *)
Definition set_dpi_error (st : DState) : DState :=
  {| offset := offset st; dpi_error := true;
     error_messages := error_messages st;
     parsed_values := parsed_values st;
     expert := expert st; locals := locals st |}.

(** [table.insert(error_messages, msg)] *)
Definition insert_message (msg : string) (st : DState) : DState :=
  {| offset := offset st; dpi_error := dpi_error st;
     error_messages := error_messages st ++ [msg];
     parsed_values := parsed_values st;
     expert := expert st; locals := locals st |}.

(** [local x = v] *)
Definition declare (x : string) (v : option ParsedValue) (st : DState)
  : DState :=
  {| offset := offset st; dpi_error := dpi_error st;
     error_messages := error_messages st;
     parsed_values := parsed_values st;
     expert := expert st; locals := (x, v) :: locals st |}.

(** [parsed_values[k] = v] *)
Definition store (k : string) (v : ParsedValue) (st : DState) : DState :=
  {| offset := offset st; dpi_error := dpi_error st;
     error_messages := error_messages st;
     parsed_values := <[k := v]> (parsed_values st);
     expert := expert st; locals := locals st |}.

Definition set_values (tbl : gmap string ParsedValue) (st : DState)
  : DState :=
  {| offset := offset st; dpi_error := dpi_error st;
     error_messages := error_messages st;
     parsed_values := tbl;
     expert := expert st; locals := locals st |}.

(** [offset = offset + n] *)
Definition advance (n : N) (st : DState) : DState :=
  {| offset := (offset st + n)%N; dpi_error := dpi_error st;
     error_messages := error_messages st;
     parsed_values := parsed_values st;
     expert := expert st; locals := locals st |}.

(** The value of the identifier [x] where a field block mentions it: the most
    recent [local] of that name, or the cursor for [offset]; [None] stands for
    anything that is not decoded data (an unset global, a table, a tree
    item). *)
Fixpoint assoc_local (x : string) (l : list (string * option ParsedValue))
  : option (option ParsedValue) :=
  match l with
  | [] => None
  | (y, v) :: l' => if String.eqb x y then Some v else assoc_local x l'
  end.

Definition lookup_var (st : DState) (x : string) : option ParsedValue :=
  match assoc_local x (locals st) with
  | Some v => v
  | None => if String.eqb x "offset" then Some (PNum (offset st)) else None
  end.

(** Runtime errors of the emitted Lua. *)
Inductive LuaError :=
| CompareError              (* attempt to compare a non-number with a number *)
| NoIntegerRepresentation   (* [1 << x] with x not an integer *)
| TableExpected             (* [table.insert(nil, ...)] *)
| DataStringTooShort        (* [string.unpack] on too few bytes *)
| UnsupportedWidth          (* [:uint()] off 1..4 bytes, [:uint64()] off 1..8 *)
| NumberExpected.           (* [math.floor] or [bit.rshift] on a [UInt64] *)

(** How the block of one field ends: control reaches the next block, the
    dissector [return]s, an error is raised, or the block does with a value
    what the model gives no meaning to (a float or a [UInt64] object as a
    length, a text or a float split into bit groups). *)
Inductive Step :=
| SNext (st : DState)
| SReturn (st : DState)
| SRaise (st : DState) (e : LuaError)
| SUnmodelled.

Definition not_enough (field_name : string) : string :=
  "Not enough bytes for " +:+ field_name.

Definition bit_mismatch (field_name : string) (c : option N) (actual : N)
  : string :=
  "Bitfield " +:+ field_name +:+ " expected " +:+ py_str c
    +:+ " bits set, got " +:+ dec actual.

Definition length_out_of_range (field_name : string) : string :=
  field_name +:+ " length out of range".

(** [actual_bit_count ~= <bitfields_count>]; a count of [None] is written as
    the unset global [None]. *)
Definition count_differs (actual : N) (c : option N) : bool :=
  match c with
  | Some n => negb (actual =? n)%N
  | None => true
  end.

(** What the accessor returns on the bytes of the field's range, or the error
    it raises: [:uint()] and [:uint64()] on a length they do not handle,
    [string.unpack] on too few bytes. *)
Definition read_value (a : Accessor) (bs : list byte)
  : LuaError + ParsedValue :=
  match a with
  | A_uint =>
      if ((1 <=? length bs) && (length bs <=? 4))%nat
      then inr (PNum (be_uint bs))
      else inl UnsupportedWidth
  | A_uint64 =>
      if ((1 <=? length bs) && (length bs <=? 8))%nat
      then inr (PU64 (be_uint bs))
      else inl UnsupportedWidth
  | A_unpack_float =>
      if (length bs <? 4)%nat then inl DataStringTooShort
      else inr (PFloat (take 4 bs))
  | A_unpack_double =>
      if (length bs <? 8)%nat then inl DataStringTooShort
      else inr (PFloat (take 8 bs))
  | A_string => inr (PText bs)
  end.

(** [local <name>_bytes = ...] is emitted for floats and doubles only. *)
Definition declare_bytes (field_name : string) (info : FieldInfo)
    (bs : list byte) (st : DState) : DState :=
  match accessor info with
  | A_unpack_float | A_unpack_double =>
      declare (field_name +:+ "_bytes") (Some (PStr (string_of_bytes bs))) st
  | _ => st
  end.

(** [local <name> = ...]: the value read and the state with the new
    [local]s. *)
Definition read_field (field_name : string) (info : FieldInfo)
    (bs : list byte) (st : DState) : LuaError + (ParsedValue * DState) :=
  match read_value (accessor info) bs with
  | inl e => inl e
  | inr v =>
      inr (v, declare field_name (Some v) (declare_bytes field_name info bs st))
  end.

(** [<name> < min_val or <name> > max_val] *)
Definition out_of_range (host : LuaHost) (v : ParsedValue) (lo hi : Z)
  : bool :=
  match v with
  | PNum n => (Z.of_N n <? lo)%Z || (hi <? Z.of_N n)%Z
  | PNeg p => (Z.neg p <? lo)%Z || (hi <? Z.neg p)%Z
  | PFloat raw => float_lt host raw lo || float_gt host raw hi
  | PU64 n => uint64_lt host n lo || uint64_gt host n hi
  | PStr _ | PText _ => false
  end.

(** The decomposition loop.  [bits_per_field] is [total_bits / count]; the
    number split comes from [:uint()], so that [total_bits] is at most 32. *)
Definition bf_value (raw count bits_per_field i : N) : Z :=
  let shift := ((count - 1 - i) * bits_per_field)%N in
  let mask := (Z.shiftl 1 (Z.of_N bits_per_field) - 1)%Z in
  bit_band (bit_rshift (Z.of_N raw) (Z.of_N shift)) mask.

Fixpoint bf_loop (field_name : string) (raw count bits_per_field : N)
    (todo : nat) (i : N) (tbl : gmap string ParsedValue)
  : gmap string ParsedValue :=
  match todo with
  | O => tbl
  | S todo' =>
      bf_loop field_name raw count bits_per_field todo' (i + 1)%N
        (<[field_name +:+ bf_suffix i :=
             number (bf_value raw count bits_per_field i)]> tbl)
  end.

Definition decompose (field_name : string) (info : FieldInfo)
    (v : ParsedValue) (total_bits : N) (st : DState) : Step :=
  match decomposition_count info with
  | None => SNext st
  | Some count =>
      if (total_bits mod count =? 0)%N then
        match v with
        | PNum raw =>
            SNext (set_values
                     (bf_loop field_name raw count (total_bits / count)
                              (N.to_nat count) 0 (parsed_values st)) st)
        | PU64 _ => SRaise st NumberExpected
        | _ => SUnmodelled
        end
      else SRaise st NoIntegerRepresentation
  end.

(** ** The per-IP dissector (with DPI tests) *)

Section Dissectors.
Variable host : LuaHost.
Variable buffer : list byte.

Definition buffer_len : N := N.of_nat (length buffer).

(** [local actual_bit_count = popcount(<name>)] and the test that follows,
    once [popcount] has returned. *)
Definition dpi_bit_count_test (field_name : string) (info : FieldInfo)
    (actual_bit_count : N) (st : DState) : DState :=
  let st := declare "actual_bit_count" (Some (PNum actual_bit_count)) st in
  let msg := bit_mismatch field_name (bitfields_count info)
                          actual_bit_count in
  if count_differs actual_bit_count (bitfields_count info) then
    insert_message msg
      (set_dpi_error (add_expert BitPopulationMismatch msg st))
  else st.

(** The block emitted for [ftype == "bitfield"].  On a [UInt64] object
    [popcount] raises in [math.floor] in its first turn; on a zero one it
    returns 0 without a turn, and [to_binary_str] raises in [bit.rshift]. *)
Definition dpi_bitfield (field_name : string) (info : FieldInfo)
    (st : DState) : Step :=
  let size := min_size info in
  if (buffer_len <? offset st + size)%N then
    SReturn (insert_message (not_enough field_name)
              (set_dpi_error
                (add_expert InsufficientBytes (not_enough field_name) st)))
  else
    match read_value (if (size =? 8)%N then A_uint64 else A_uint)
            (tvb_range buffer (offset st) size) with
    | inl e => SRaise st e
    | inr v =>
        let st := declare field_name (Some v) st in
        let st := declare (field_name +:+ "_item") None st in
        let num_bits := (size * 8)%N in
        let st := declare "num_bits" (Some (PNum num_bits)) st in
        match v with
        | PNum raw =>
            let st := dpi_bit_count_test field_name info (popcount raw) st in
            let binary_str := to_binary_str raw num_bits in
            let st := declare "binary_str" (Some (PStr binary_str)) st in
            let st := store field_name (PStr binary_str) st in
            SNext (advance size st)
        | PU64 raw =>
            if (raw =? 0)%N then
              SRaise (dpi_bit_count_test field_name info 0 st) NumberExpected
            else SRaise st NumberExpected
        | _ => SUnmodelled
        end
    end.

(** The range test, emitted when both bounds are given. *)
Definition dpi_range_check (field_name : string) (info : FieldInfo)
    (v : ParsedValue) (st : DState) : DState :=
  match min_value info, max_value info with
  | Some lo, Some hi =>
      if range_checked (field_type info) && out_of_range host v lo hi then
        insert_message (field_name +:+ " out of range")
          (set_dpi_error
            (add_expert ValueOutOfRange
               ("Value out of range for " +:+ field_name) st))
      else st
  | _, _ => st
  end.

(** The block emitted for [not info.get("is_dynamic_array", False)]. *)
Definition dpi_fixed (field_name : string) (info : FieldInfo)
    (st : DState) : Step :=
  let size := min_size info in
  if (buffer_len <? offset st + size)%N then
    SReturn (add_expert InsufficientBytes (not_enough field_name) st)
  else
    match read_field field_name info (tvb_range buffer (offset st) size) st
    with
    | inl e => SRaise st e
    | inr (v, st) =>
        let st := declare (field_name +:+ "_item") None st in
        let st := store field_name v st in
        let st := dpi_range_check field_name info v st in
        let st := advance size st in
        decompose field_name info v (size * 8) st
    end.

(** The block emitted for a dynamic array. *)
Definition dpi_dynamic (field_name : string) (info : FieldInfo)
    (st : DState) : Step :=
  let dynamic_length := lookup_var st (size_defining_field info) in
  let st := declare "dynamic_length" dynamic_length st in
  match dynamic_length with
  | None | Some (PStr _) | Some (PText _) => SRaise st CompareError
  | Some (PFloat _) | Some (PU64 _) | Some (PNeg _) => SUnmodelled
  | Some (PNum dynamic_length) =>
      let st :=
        if (dynamic_length <? min_size info)%N
           || (max_size info <? dynamic_length)%N then
          insert_message (length_out_of_range field_name)
            (set_dpi_error
              (add_expert DynamicLengthOutOfRange
                 (length_out_of_range field_name) st))
        else st in
      if (buffer_len <? offset st + dynamic_length)%N then
        SReturn (insert_message (not_enough field_name)
                  (set_dpi_error
                    (add_expert InsufficientBytes (not_enough field_name)
                                st)))
      else
        match read_field field_name info
                (tvb_range buffer (offset st) dynamic_length) st with
        | inl e => SRaise st e
        | inr (v, st) =>
            let st := declare (field_name +:+ "_item") None st in
            let st := store field_name v st in
            let st := advance dynamic_length st in
            decompose field_name info v (dynamic_length * 8) st
        end
  end.

(** [if ftype == "bitfield": ... elif not is_dynamic_array: ... else: ...] *)
Definition dpi_field (field : string * FieldInfo) (st : DState) : Step :=
  let '(field_name, info) := field in
  match field_type info with
  | FT_bitfield => dpi_bitfield field_name info st
  | _ =>
      if is_dynamic_array info then dpi_dynamic field_name info st
      else dpi_fixed field_name info st
  end.

(** The blocks of all fields, one after the other. *)
Fixpoint run_fields (block : string * FieldInfo -> DState -> Step)
    (fields : FieldList) (st : DState) : Step :=
  match fields with
  | [] => SNext st
  | field :: rest =>
      match block field st with
      | SNext st' => run_fields block rest st'
      | stop => stop
      end
  end.

(** [for k, v in pairs(t) do table.insert(parts, k .. "=" .. tostring(v)) end] *)
Definition parts (tbl : gmap string ParsedValue) : list string :=
  map (fun '(k, v) => k +:+ "=" +:+ tostring host v) (map_to_list tbl).

(** [table.sort(parts)] orders the strings byte by byte ([String.le]);
    then [table.concat(parts, ", ")]. *)
Definition summary (tbl : gmap string ParsedValue) : string :=
  String.concat ", " (merge_sort String.le (parts tbl)).

(** What is written to [pinfo.cols.info] at the end of the per-IP dissector. *)
Definition dpi_info (st : DState) : string :=
  if dpi_error st then
    "[DPI Error: " +:+ String.concat "; " (error_messages st) +:+ "]"
  else summary (parsed_values st).

(** The end of the per-IP dissector attaches one more expert info when
    [dpi_error] is set. *)
Definition dpi_final (st : DState) : DState :=
  if dpi_error st then
    add_expert ProtocolError "DPI Error in this packet" st
  else st.

(** What is written to [pinfo.cols.info] at the end of the static dissector. *)
Definition static_info (st : DState) : string :=
  "Static: " +:+ summary (parsed_values st).

(** The end of the static dissector attaches nothing. *)
Definition static_final (st : DState) : DState := st.

(** How a call of a dissector ends: [Skipped] by the guard on an empty
    buffer, [Aborted] by a [return] inside a field block, [Raised] by a
    runtime error, [Finished] with the text written to the Info column. *)
Inductive Outcome :=
| Skipped
| Aborted (st : DState)
| Raised (st : DState) (e : LuaError)
| Unmodelled
| Finished (st : DState) (info : string).

(** After the last block: [final] is what the closing code does to the
    state, [report] the text it writes. *)
Definition finish (final : DState -> DState) (report : DState -> string)
    (s : Step) : Outcome :=
  match s with
  | SNext st => Finished (final st) (report st)
  | SReturn st => Aborted st
  | SRaise st e => Raised st e
  | SUnmodelled => Unmodelled
  end.

(** [function <proto_name>.dissector(buffer, pinfo, tree)] *)
Definition dpi_dissector (fields : FieldList) : Outcome :=
  if (buffer_len =? 0)%N then Skipped
  else finish dpi_final dpi_info
         (run_fields dpi_field fields initial_state).

(** ** The static dissector (no DPI tests) *)

(** [table.insert(error_messages, msg)] where [error_messages] is not
    declared: the argument is [nil]. *)
Definition insert_into_undeclared (st : DState) : Step :=
  SRaise st TableExpected.

(** The bit-count test of the static dissector: the expert info only. *)
Definition static_bit_count_test (field_name : string) (info : FieldInfo)
    (actual_bit_count : N) (st : DState) : DState :=
  let st := declare "actual_bit_count" (Some (PNum actual_bit_count)) st in
  let msg := bit_mismatch field_name (bitfields_count info)
                          actual_bit_count in
  if count_differs actual_bit_count (bitfields_count info) then
    add_expert BitPopulationMismatch msg st
  else st.

Definition static_bitfield (field_name : string) (info : FieldInfo)
    (st : DState) : Step :=
  let size := min_size info in
  if (buffer_len <? offset st + size)%N then
    SReturn (add_expert InsufficientBytes (not_enough field_name) st)
  else
    match read_value (if (size =? 8)%N then A_uint64 else A_uint)
            (tvb_range buffer (offset st) size) with
    | inl e => SRaise st e
    | inr v =>
        let st := declare field_name (Some v) st in
        let st := declare (field_name +:+ "_item") None st in
        let num_bits := (size * 8)%N in
        let st := declare "num_bits" (Some (PNum num_bits)) st in
        match v with
        | PNum raw =>
            let st :=
              static_bit_count_test field_name info (popcount raw) st in
            let binary_str := to_binary_str raw num_bits in
            let st := declare "binary_str" (Some (PStr binary_str)) st in
            let st := store field_name (PStr binary_str) st in
            SNext (advance size st)
        | PU64 raw =>
            if (raw =? 0)%N then
              SRaise (static_bit_count_test field_name info 0 st)
                     NumberExpected
            else SRaise st NumberExpected
        | _ => SUnmodelled
        end
    end.

Definition static_fixed (field_name : string) (info : FieldInfo)
    (st : DState) : Step :=
  let size := min_size info in
  if (buffer_len <? offset st + size)%N then
    SReturn (add_expert InsufficientBytes (not_enough field_name) st)
  else
    match read_field field_name info (tvb_range buffer (offset st) size) st
    with
    | inl e => SRaise st e
    | inr (v, st) =>
        let st := store field_name v st in
        let st := advance size st in
        decompose field_name info v (size * 8) st
    end.

Definition static_dynamic (field_name : string) (info : FieldInfo)
    (st : DState) : Step :=
  let dynamic_length := lookup_var st (size_defining_field info) in
  let st := declare "dynamic_length" dynamic_length st in
  match dynamic_length with
  | None | Some (PStr _) | Some (PText _) => SRaise st CompareError
  | Some (PFloat _) | Some (PU64 _) | Some (PNeg _) => SUnmodelled
  | Some (PNum dynamic_length) =>
      if (dynamic_length <? min_size info)%N
         || (max_size info <? dynamic_length)%N then
        insert_into_undeclared
          (set_dpi_error
            (add_expert DynamicLengthOutOfRange
               (length_out_of_range field_name) st))
      else if (buffer_len <? offset st + dynamic_length)%N then
        insert_into_undeclared
          (set_dpi_error
            (add_expert InsufficientBytes (not_enough field_name) st))
      else
        match read_field field_name info
                (tvb_range buffer (offset st) dynamic_length) st with
        | inl e => SRaise st e
        | inr (v, st) =>
            let st := store field_name v st in
            let st := advance dynamic_length st in
            decompose field_name info v (dynamic_length * 8) st
        end
  end.

Definition static_field (field : string * FieldInfo) (st : DState) : Step :=
  let '(field_name, info) := field in
  match field_type info with
  | FT_bitfield => static_bitfield field_name info st
  | _ =>
      if is_dynamic_array info then static_dynamic field_name info st
      else static_fixed field_name info st
  end.

(** [function <protocol>.dissector(buffer, pinfo, tree)] *)
Definition static_dissector (fields : FieldList) : Outcome :=
  if (buffer_len =? 0)%N then Skipped
  else finish static_final static_info
         (run_fields static_field fields initial_state).

End Dissectors.

(** ** The result of a call, as the description of the decoder names it *)

Definition final_state (o : Outcome) : option DState :=
  match o with
  | Aborted st | Raised st _ | Finished st _ => Some st
  | Skipped | Unmodelled => None
  end.

(** The values stored so far. *)
Definition values (o : Outcome) : gmap string ParsedValue :=
  match final_state o with Some st => parsed_values st | None => ∅ end.

(** The accumulated error messages. *)
Definition errors (o : Outcome) : list string :=
  match final_state o with Some st => error_messages st | None => [] end.

(** The expert infos attached to the tree. *)
Definition diagnostics (o : Outcome) : list (ErrKind * string) :=
  match final_state o with Some st => expert st | None => [] end.

(** A bounds check stopped the decode. *)
Definition fatal (o : Outcome) : bool :=
  match o with Aborted _ => true | _ => false end.

(** The text of the Info column, when the call writes one. *)
Definition report (o : Outcome) : option string :=
  match o with Finished _ info => Some info | _ => None end.

(** The runtime error, when the call raises one. *)
Definition raised (o : Outcome) : option LuaError :=
  match o with Raised _ e => Some e | _ => None end.

(** ** Sample descriptions *)

Definition field (t : FieldType) (size : N) : FieldInfo :=
  {| field_type := t; min_size := size; max_size := size;
     is_dynamic_array := false; size_defining_field := "";
     min_value := None; max_value := None; bitfields_count := None |}.

Definition with_range (lo hi : Z) (info : FieldInfo) : FieldInfo :=
  {| field_type := field_type info; min_size := min_size info;
     max_size := max_size info; is_dynamic_array := is_dynamic_array info;
     size_defining_field := size_defining_field info;
     min_value := Some lo; max_value := Some hi;
     bitfields_count := bitfields_count info |}.

Definition with_count (c : N) (info : FieldInfo) : FieldInfo :=
  {| field_type := field_type info; min_size := min_size info;
     max_size := max_size info; is_dynamic_array := is_dynamic_array info;
     size_defining_field := size_defining_field info;
     min_value := min_value info; max_value := max_value info;
     bitfields_count := Some c |}.

Definition dynamic (size_field : string) (lo hi : N) (info : FieldInfo)
  : FieldInfo :=
  {| field_type := field_type info; min_size := lo; max_size := hi;
     is_dynamic_array := true; size_defining_field := size_field;
     min_value := min_value info; max_value := max_value info;
     bitfields_count := bitfields_count info |}.

(** [{seq: int, 2 bytes, 0..65535}, {flags: bitfield, 1 byte, 3 bits set}] *)
Definition seq_flags : FieldList :=
  [("seq", with_range 0 65535 (field FT_int 2));
   ("flags", with_count 3 (field FT_bitfield 1))].

(** [{len: int, 1 byte}, {payload: char, dynamic, length in len, 1..10}] *)
Definition len_payload : FieldList :=
  [("len", field FT_int 1);
   ("payload", dynamic "len" 1 10 (field FT_char 1))].

(** A host that prints every float as [nan] and orders none, orders a
    [UInt64] object by its value, and decodes a text to its bytes. *)
Definition nan_host : LuaHost :=
  {| float_text := fun _ => "nan";
     float_lt := fun _ _ => false;
     float_gt := fun _ _ => false;
     uint64_lt := fun n z => (Z.of_N n <? z)%Z;
     uint64_gt := fun n z => (z <? Z.of_N n)%Z;
     range_text := string_of_bytes |}.

(** ** Notions used in the statements *)

(** The digits [to_binary_str] appends, most significant first. *)
Fixpoint binary_digits (num : N) (todo : nat) : string :=
  match todo with
  | O => ""
  | S i =>
      String (if (N.land (N.shiftr num (N.of_nat i)) 1 =? 1)%N
              then "1"%char else "0"%char)
             (binary_digits num i)
  end.

(** The number of ["1"] characters of a text. *)
Fixpoint count_ones (s : string) : N :=
  match s with
  | "" => 0%N
  | String c s' => ((if Ascii.eqb c "1" then 1 else 0) + count_ones s')%N
  end.

(** The number of set bits among the [n] low bits. *)
Fixpoint bitsum (x : N) (n : nat) : N :=
  match n with
  | O => 0%N
  | S k => ((if N.testbit x (N.of_nat k) then 1 else 0) + bitsum x k)%N
  end.

(** Bit groups of width [w] put side by side, the first one most
    significant. *)
Definition join_groups (w : N) (groups : list N) : N :=
  fold_left (fun acc g => (acc * 2 ^ w + g)%N) groups 0%N.

(** In the per-IP dissector [dpi_error] is set exactly when a message has
    been inserted. *)
Definition consistent (st : DState) : Prop :=
  dpi_error st = true <-> error_messages st <> [].

(** In the static dissector, between two blocks, no message has been inserted
    and the only expert infos are bit-count mismatches. *)
Definition static_clean (st : DState) : Prop :=
  error_messages st = []
  /\ Forall (fun d => fst d = BitPopulationMismatch) (expert st).

(** ** Generation time: declarations and file names *)

(** [ip.replace('.', '_')] *)
Fixpoint ip_clean (ip : string) : string :=
  match ip with
  | "" => ""
  | String c rest =>
      String (if Ascii.eqb c "." then "_"%char else c) (ip_clean rest)
  end.

(** [f"{protocol}_{ip_clean}"] *)
Definition proto_name (protocol ip : string) : string :=
  protocol +:+ "_" +:+ ip_clean ip.

(** [f"{protocol}_for_{ip_clean}.lua"] *)
Definition filename (protocol ip : string) : string :=
  protocol +:+ "_for_" +:+ ip_clean ip +:+ ".lua".

(** [f"{protocol}.lua"] *)
Definition static_filename (protocol : string) : string :=
  protocol +:+ ".lua".

(** The [local f_...] ProtoFields written for one field: the field itself,
    then one [ProtoField.uint8] per sub-value of a field that is not a
    bitfield. *)
Definition field_declarations (field : string * FieldInfo)
  : list (string * ProtoFieldType) :=
  let '(field_name, info) := field in
  ("f_" +:+ field_name, proto_field_type info) ::
  match field_type info, decomposition_count info with
  | FT_bitfield, _ | _, None => []
  | _, Some c =>
      map (fun i => ("f_" +:+ field_name +:+ bf_suffix (N.of_nat i), PF_uint8))
          (seq 0 (N.to_nat c))
  end.

(** The declaration loop over [fields.items()]. *)
Definition declarations (fields : FieldList)
  : list (string * ProtoFieldType) :=
  flat_map field_declarations fields.

(** ** More notions used in the statements *)

(** The state a block ends in, when it ends in one. *)
Definition step_state (s : Step) : option DState :=
  match s with
  | SNext st | SReturn st | SRaise st _ => Some st
  | SUnmodelled => None
  end.

(** A text of binary digits read back as a number. *)
Definition binary_value (s : string) : N :=
  fold_left (fun acc c => (2 * acc + (if Ascii.eqb c "1" then 1 else 0))%N)
            (list_ascii_of_string s) 0%N.

Definition no_char (c : ascii) (s : string) : Prop :=
  Forall (fun x => x <> c) (list_ascii_of_string s).

(** Between two blocks of the per-IP dissector every expert info has its
    message, and none of them is about missing bytes. *)
Definition diagnostics_match (st : DState) : Prop :=
  length (error_messages st) = length (expert st)
  /\ Forall (fun d => fst d <> InsufficientBytes) (expert st).

(** A field that takes the bitfield block or the fixed-length block. *)
Definition fixed_length (field : string * FieldInfo) : Prop :=
  field_type (snd field) = FT_bitfield
  \/ is_dynamic_array (snd field) = false.

(** A length field followed by a text of that length. *)
Definition length_prefixed (len_name payload_name : string) (w lo hi : N)
  : FieldList :=
  [(len_name, field FT_int w);
   (payload_name, dynamic len_name lo hi (field FT_char 1))].

(** The bytes a description of fixed-length fields asks for. *)
Definition total_size (fields : FieldList) : N :=
  fold_right (fun field acc => (min_size (snd field) + acc)%N) 0%N fields.

(** * Properties *)

(** ** The guard on an empty buffer *)

(** C10: on a buffer of length 0 both dissectors return at once, whatever
    the fields: nothing is parsed, nothing is recorded and the Info column
    is not written. *)
Theorem empty_buffer_skipped (host : LuaHost) (fields : FieldList) :
  dpi_dissector host [] fields = Skipped
  /\ static_dissector host [] fields = Skipped.
Proof. split; reflexivity. Qed.

(** ** A buffer shorter than the first field *)

Lemma buffer_len_nonempty (buffer : list byte) :
  buffer <> [] -> (buffer_len buffer =? 0)%N = false.
Proof.
  intros Hne. apply N.eqb_neq. unfold buffer_len.
  destruct buffer; [congruence | simpl; lia].
Qed.

(** C1, as stated, fails on the empty buffer: the guard returns before the
    first bounds check, so no error is recorded. *)
Lemma short_buffer_counterexample :
  ~ (forall (host : LuaHost) (buffer : list byte) (field_name : string)
            (info : FieldInfo) (rest : FieldList),
        (buffer_len buffer < min_size info)%N ->
        let o := dpi_dissector host buffer ((field_name, info) :: rest) in
        errors o = [not_enough field_name]
        /\ values o = ∅ /\ fatal o = true).
Proof.
  intros H.
  specialize (H nan_host [] "flags" (with_count 3 (field FT_bitfield 1)) []).
  destruct H as [Herr _]; [reflexivity | discriminate Herr].
Qed.

(** C1, amended: on a non-empty buffer shorter than the fixed length of the
    first field, the per-IP dissector returns from the first bounds check:
    no value is stored, the cursor has not moved, no later field has run, and
    exactly one diagnostic, "Not enough bytes", is attached; when the first
    field is a bitfield that message is also the only recorded error. *)
Theorem short_buffer_aborts (host : LuaHost) (buffer : list byte)
    (field_name : string) (info : FieldInfo) (rest : FieldList) :
  buffer <> [] ->
  (buffer_len buffer < min_size info)%N ->
  field_type info = FT_bitfield \/ is_dynamic_array info = false ->
  exists st,
    dpi_dissector host buffer ((field_name, info) :: rest) = Aborted st
    /\ parsed_values st = ∅
    /\ offset st = 0%N
    /\ locals st = []
    /\ expert st = [(InsufficientBytes, not_enough field_name)]
    /\ (field_type info = FT_bitfield ->
        error_messages st = [not_enough field_name]
        /\ dpi_error st = true).
Proof.
  intros Hne Hshort Hfixed.
  apply N.ltb_lt in Hshort.
  assert (Hret : exists st,
    dpi_field host buffer (field_name, info) initial_state = SReturn st
    /\ parsed_values st = ∅ /\ offset st = 0%N /\ locals st = []
    /\ expert st = [(InsufficientBytes, not_enough field_name)]
    /\ (field_type info = FT_bitfield ->
        error_messages st = [not_enough field_name] /\ dpi_error st = true)).
  { unfold dpi_field.
    destruct (field_type info) eqn:Hty;
      try (destruct Hfixed as [Hbf | Hdyn]; [discriminate Hbf |];
           rewrite Hdyn; unfold dpi_fixed; cbn [initial_state offset];
           rewrite N.add_0_l, Hshort;
           eexists; split; [reflexivity |]; cbn;
           repeat split; discriminate).
    unfold dpi_bitfield; cbn [initial_state offset].
    rewrite N.add_0_l, Hshort.
    eexists; split; [reflexivity |]; cbn. repeat split. }
  destruct Hret as (st & Hstep & Hrest).
  exists st. split; [| exact Hrest].
  unfold dpi_dissector. rewrite (buffer_len_nonempty _ Hne).
  cbn [run_fields]. rewrite Hstep. reflexivity.
Qed.

(** On the two-field description and the one-byte buffer [00]. *)
Lemma short_buffer_aborts_witness :
  exists st,
    dpi_dissector nan_host [x00] seq_flags = Aborted st
    /\ parsed_values st = ∅
    /\ offset st = 0%N
    /\ locals st = []
    /\ expert st = [(InsufficientBytes, "Not enough bytes for seq")]
    /\ (FT_int = FT_bitfield ->
        error_messages st = ["Not enough bytes for seq"]
        /\ dpi_error st = true).
Proof.
  apply (short_buffer_aborts nan_host [x00] "seq"
           (with_range 0 65535 (field FT_int 2))
           [("flags", with_count 3 (field FT_bitfield 1))]).
  - discriminate.
  - reflexivity.
  - right; reflexivity.
Defined.

(** ** What a field block leaves behind *)

Lemma length_append (s t : string) :
  String.length (s +:+ t) = String.length s + String.length t.
Proof.
  induction s as [| c s IH]; [reflexivity |].
  change (S (String.length (s +:+ t)) = S (String.length s) + String.length t).
  now rewrite IH.
Qed.

(** The key of a sub-value is never the key of its field. *)
Lemma bf_key_fresh (field_name : string) (i : N) :
  field_name +:+ bf_suffix i <> field_name.
Proof.
  intros Heq. apply (f_equal String.length) in Heq.
  rewrite length_append in Heq. unfold bf_suffix in Heq.
  rewrite length_append in Heq. simpl in Heq. lia.
Qed.

Lemma bf_loop_lookup_field (field_name : string) (raw count bpf : N)
    (todo : nat) (i : N) (tbl : gmap string ParsedValue) :
  bf_loop field_name raw count bpf todo i tbl !! field_name
  = tbl !! field_name.
Proof.
  revert i tbl. induction todo as [| todo IH]; intros i tbl; simpl.
  - reflexivity.
  - rewrite IH. apply lookup_insert_ne, bf_key_fresh.
Qed.

(** The decomposition loop only writes sub-value keys. *)
Lemma decompose_next (field_name : string) (info : FieldInfo)
    (v : ParsedValue) (bits : N) (st st' : DState) :
  decompose field_name info v bits st = SNext st' ->
  offset st' = offset st
  /\ dpi_error st' = dpi_error st
  /\ error_messages st' = error_messages st
  /\ expert st' = expert st
  /\ locals st' = locals st
  /\ parsed_values st' !! field_name = parsed_values st !! field_name.
Proof.
  unfold decompose. intros H.
  destruct (decomposition_count info) as [count |].
  - destruct (bits mod count =? 0)%N; [| discriminate H].
    destruct v; try discriminate H.
    injection H as <-. cbn. repeat split.
    apply bf_loop_lookup_field.
  - injection H as <-. repeat split.
Qed.

Lemma decompose_not_return (field_name : string) (info : FieldInfo)
    (v : ParsedValue) (bits : N) (st st' : DState) :
  decompose field_name info v bits st <> SReturn st'.
Proof.
  unfold decompose.
  destruct (decomposition_count info) as [count |]; [| discriminate].
  destruct (bits mod count =? 0)%N; [| discriminate].
  destruct v; discriminate.
Qed.

Lemma read_field_inr (field_name : string) (info : FieldInfo)
    (bs : list byte) (st st1 : DState) (v : ParsedValue) :
  read_field field_name info bs st = inr (v, st1) ->
  read_value (accessor info) bs = inr v
  /\ offset st1 = offset st
  /\ dpi_error st1 = dpi_error st
  /\ error_messages st1 = error_messages st
  /\ expert st1 = expert st
  /\ parsed_values st1 = parsed_values st.
Proof.
  unfold read_field, declare_bytes. intros H.
  destruct (read_value (accessor info) bs) as [e | v0]; [discriminate H |].
  injection H as <- <-.
  destruct (accessor info); cbn; repeat split.
Qed.

Lemma dpi_range_check_frame (host : LuaHost) (field_name : string)
    (info : FieldInfo) (v : ParsedValue) (st : DState) :
  offset (dpi_range_check host field_name info v st) = offset st
  /\ parsed_values (dpi_range_check host field_name info v st)
     = parsed_values st
  /\ locals (dpi_range_check host field_name info v st) = locals st.
Proof.
  unfold dpi_range_check.
  destruct (min_value info), (max_value info); try (repeat split; fail).
  destruct (range_checked (field_type info) && out_of_range host v z z0);
    repeat split.
Qed.

(** A fixed-length block that reaches the next block has read the declared
    number of bytes at the cursor, stored the value under the field's name
    and moved the cursor by that number. *)
Lemma dpi_fixed_next (host : LuaHost) (buffer : list byte)
    (field_name : string) (info : FieldInfo) (st st' : DState) :
  dpi_fixed host buffer field_name info st = SNext st' ->
  (offset st + min_size info <= buffer_len buffer)%N
  /\ offset st' = (offset st + min_size info)%N
  /\ exists v,
       read_value (accessor info)
         (tvb_range buffer (offset st) (min_size info)) = inr v
       /\ parsed_values st' !! field_name = Some v.
Proof.
  unfold dpi_fixed. intros H.
  destruct (buffer_len buffer <? offset st + min_size info)%N eqn:Hlen;
    [discriminate H |].
  apply N.ltb_ge in Hlen. split; [exact Hlen |].
  destruct (read_field field_name info _ st) as [e | [v st1]] eqn:Hread;
    [discriminate H |].
  apply read_field_inr in Hread as (Hv & Hoff & _).
  apply decompose_next in H as (Hoff' & _ & _ & _ & _ & Hval).
  cbn in Hoff', Hval.
  destruct (dpi_range_check_frame host field_name info v
              (store field_name v (declare (field_name +:+ "_item") None st1)))
    as (Ho & Hp & _).
  rewrite Ho in Hoff'. rewrite Hp in Hval. cbn in Hoff', Hval.
  split; [rewrite Hoff'; now rewrite Hoff |].
  exists v. split; [exact Hv |].
  rewrite Hval. apply lookup_insert_eq.
Qed.

Lemma dpi_fixed_return (host : LuaHost) (buffer : list byte)
    (field_name : string) (info : FieldInfo) (st st' : DState) :
  dpi_fixed host buffer field_name info st = SReturn st' ->
  (buffer_len buffer < offset st + min_size info)%N.
Proof.
  unfold dpi_fixed. intros H.
  destruct (buffer_len buffer <? offset st + min_size info)%N eqn:Hlen.
  - now apply N.ltb_lt.
  - destruct (read_field field_name info _ st) as [e | [v st1]];
      [discriminate H |].
    now apply decompose_not_return in H.
Qed.

(** ** Reading integers *)

Lemma be_uint_fold_bound (bs : list byte) (acc : N) :
  (fold_left (fun a b => a * 256 + Byte.to_N b) bs acc
   < (acc + 1) * 256 ^ N.of_nat (length bs))%N.
Proof.
  revert acc. induction bs as [| b bs IH]; intros acc.
  - simpl. lia.
  - cbn [fold_left length]. rewrite Nat2N.inj_succ, N.pow_succ_r'.
    eapply N.lt_le_trans; [apply IH |].
    pose proof (Byte.to_N_bounded b).
    rewrite N.mul_assoc. apply N.mul_le_mono_r. lia.
Qed.

(** [n] bytes hold an unsigned integer of [8 * n] bits. *)
Lemma be_uint_bound (bs : list byte) :
  (be_uint bs < 2 ^ (8 * N.of_nat (length bs)))%N.
Proof.
  unfold be_uint. rewrite N.pow_mul_r. change (2 ^ 8)%N with 256%N.
  pose proof (be_uint_fold_bound bs 0) as H. lia.
Qed.

(** A range inside the buffer has the length asked for. *)
Lemma tvb_range_length (buffer : list byte) (off len : N) :
  (off + len <= buffer_len buffer)%N ->
  N.of_nat (length (tvb_range buffer off len)) = len.
Proof.
  unfold buffer_len, tvb_range. intros H.
  rewrite length_take_le; [apply N2Nat.id |].
  rewrite length_drop. lia.
Qed.

(** [:uint()] on 1 to 4 bytes. *)
Lemma read_uint (bs : list byte) :
  (1 <= length bs <= 4)%nat ->
  read_value A_uint bs = inr (PNum (be_uint bs)).
Proof.
  intros [H1 H4]. cbn [read_value].
  apply Nat.leb_le in H1, H4. now rewrite H1, H4.
Qed.

(** A range of 1 to 4 bytes inside the buffer is read by [:uint()]. *)
Lemma read_uint_range (buffer : list byte) (off size : N) :
  (1 <= size <= 4)%N ->
  (off + size <= buffer_len buffer)%N ->
  read_value (if (size =? 8)%N then A_uint64 else A_uint)
    (tvb_range buffer off size)
  = inr (PNum (be_uint (tvb_range buffer off size))).
Proof.
  intros Hsize Hlen.
  assert ((size =? 8)%N = false) as -> by (apply N.eqb_neq; lia).
  apply read_uint.
  pose proof (tvb_range_length buffer off size Hlen). lia.
Qed.

(** Any other length is refused by [:uint()]. *)
Lemma read_uint_refused (buffer : list byte) (off size : N) :
  (size = 0 \/ 5 <= size)%N -> size <> 8%N ->
  (off + size <= buffer_len buffer)%N ->
  read_value (if (size =? 8)%N then A_uint64 else A_uint)
    (tvb_range buffer off size)
  = inl UnsupportedWidth.
Proof.
  intros Hsize H8 Hlen.
  assert ((size =? 8)%N = false) as -> by now apply N.eqb_neq.
  pose proof (tvb_range_length buffer off size Hlen) as Hl.
  cbn [read_value].
  destruct Hsize as [-> | Hsize].
  - assert (length (tvb_range buffer off 0) = 0%nat) as -> by lia.
    reflexivity.
  - assert ((length (tvb_range buffer off size) <=? 4)%nat = false) as ->
      by (apply Nat.leb_gt; lia).
    now rewrite andb_false_r.
Qed.

Lemma integer_accessor (info : FieldInfo) :
  integer_like (field_type info) = true \/ field_type info = FT_bitfield ->
  accessor info = if (min_size info =? 8)%N then A_uint64 else A_uint.
Proof.
  unfold accessor. intros [H | H].
  - destruct (field_type info); try discriminate H; reflexivity.
  - now rewrite H.
Qed.

(** What an integer accessor returns is the unsigned value of the bytes: a
    number from [:uint()], a [UInt64] object from [:uint64()]. *)
Lemma integer_read_unsigned (info : FieldInfo) (bs : list byte)
    (v : ParsedValue) :
  integer_like (field_type info) = true ->
  read_value (accessor info) bs = inr v ->
  (min_size info <> 8%N /\ v = PNum (be_uint bs))
  \/ (min_size info = 8%N /\ v = PU64 (be_uint bs)).
Proof.
  intros Hint. rewrite integer_accessor by now left.
  destruct (N.eqb_spec (min_size info) 8) as [H8 | H8]; cbn [read_value];
    destruct (_ && _); intros H; try discriminate H;
    injection H as <-; [right | left]; now split.
Qed.

(** An integer-like fixed field of 1 to 4 bytes, without decomposition,
    reaches the next block when the buffer holds its bytes. *)
Lemma dpi_fixed_integer_runs (host : LuaHost) (buffer : list byte)
    (field_name : string) (info : FieldInfo) (st : DState) :
  integer_like (field_type info) = true ->
  decomposition_count info = None ->
  (1 <= min_size info <= 4)%N ->
  (offset st + min_size info <= buffer_len buffer)%N ->
  exists st', dpi_fixed host buffer field_name info st = SNext st'.
Proof.
  intros Hint Hcount Hsize Hlen. unfold dpi_fixed.
  pose proof Hlen as Hlen'. apply N.ltb_ge in Hlen'. rewrite Hlen'.
  unfold read_field. rewrite integer_accessor by now left.
  rewrite read_uint_range by assumption.
  unfold decompose. rewrite Hcount. eexists; reflexivity.
Qed.

(** ** [long] fields *)

(** C2 (defect): a 4-byte [long] is declared [ProtoField.int32] and read
    with the unsigned [:uint()]: on the bytes [ff ff ff ff] the value stored
    and reported is 4294967295, where a signed 32-bit decoding gives -1.  A
    [long] of 5 bytes, declared [int32] as well, is not decoded at all:
    [:uint()] raises on 5 bytes. *)
Theorem long_read_unsigned :
  let run :=
    dpi_dissector nan_host [xff; xff; xff; xff] [("id", field FT_long 4)] in
  let wide_run :=
    dpi_dissector nan_host [x00; x00; x00; x00; x01]
      [("id", field FT_long 5)] in
  proto_field_type (field FT_long 4) = PF_int32
  /\ accessor (field FT_long 4) = A_uint
  /\ values run !! "id" = Some (PNum 4294967295)
  /\ report run = Some "id=4294967295"
  /\ proto_field_type (field FT_long 5) = PF_int32
  /\ raised wide_run = Some UnsupportedWidth
  /\ report wide_run = None.
Proof. repeat split; reflexivity. Qed.

(** ** Bitfield blocks *)

(** A bitfield block that reaches the next block has read a number: it has
    stored the binary text of the raw value, moved the cursor by the
    declared size, and recorded the mismatch message exactly when the count
    differs. *)
Lemma dpi_bitfield_next (buffer : list byte) (field_name : string)
    (info : FieldInfo) (st st' : DState) :
  dpi_bitfield buffer field_name info st = SNext st' ->
  (offset st + min_size info <= buffer_len buffer)%N
  /\ exists raw,
       read_value (if (min_size info =? 8)%N then A_uint64 else A_uint)
         (tvb_range buffer (offset st) (min_size info)) = inr (PNum raw)
       /\ let differs := count_differs (popcount raw) (bitfields_count info) in
          let msg :=
            bit_mismatch field_name (bitfields_count info) (popcount raw) in
          offset st' = (offset st + min_size info)%N
          /\ parsed_values st'
             = <[field_name := PStr (to_binary_str raw (min_size info * 8))]>
                 (parsed_values st)
          /\ error_messages st'
             = (error_messages st ++ (if differs then [msg] else []))%list
          /\ expert st'
             = (expert st
                ++ (if differs then [(BitPopulationMismatch, msg)]
                    else []))%list
          /\ dpi_error st' = dpi_error st || differs.
Proof.
  unfold dpi_bitfield. intros H.
  destruct (buffer_len buffer <? offset st + min_size info)%N eqn:Hlen;
    [discriminate H |].
  apply N.ltb_ge in Hlen. split; [exact Hlen |].
  destruct (read_value _ _) as [e | [raw | s | f | raw | p | t]];
    try discriminate H.
  - exists raw. split; [reflexivity |].
    injection H as <-. unfold dpi_bit_count_test.
    destruct (count_differs _ _); cbn;
      rewrite ?app_nil_r, ?orb_true_r, ?orb_false_r; repeat split.
  - destruct (raw =? 0)%N; discriminate H.
Qed.

(** With its 1 to 4 bytes in the buffer, a bitfield block reaches the next
    block, on the unsigned value of those bytes. *)
Lemma dpi_bitfield_runs (buffer : list byte) (field_name : string)
    (info : FieldInfo) (st : DState) :
  (1 <= min_size info <= 4)%N ->
  (offset st + min_size info <= buffer_len buffer)%N ->
  let raw := be_uint (tvb_range buffer (offset st) (min_size info)) in
  let differs := count_differs (popcount raw) (bitfields_count info) in
  let msg := bit_mismatch field_name (bitfields_count info) (popcount raw) in
  exists st',
    dpi_bitfield buffer field_name info st = SNext st'
    /\ offset st' = (offset st + min_size info)%N
    /\ parsed_values st'
       = <[field_name := PStr (to_binary_str raw (min_size info * 8))]>
           (parsed_values st)
    /\ error_messages st'
       = (error_messages st ++ (if differs then [msg] else []))%list
    /\ expert st'
       = (expert st
          ++ (if differs then [(BitPopulationMismatch, msg)] else []))%list
    /\ dpi_error st' = dpi_error st || differs.
Proof.
  intros Hsize Hlen raw differs msg.
  assert (Hrun : exists st',
             dpi_bitfield buffer field_name info st = SNext st').
  { unfold dpi_bitfield.
    pose proof Hlen as Hlen'. apply N.ltb_ge in Hlen'. rewrite Hlen'.
    rewrite read_uint_range by assumption. eexists; reflexivity. }
  destruct Hrun as [st' Hrun]. exists st'. split; [exact Hrun |].
  apply dpi_bitfield_next in Hrun as (_ & raw' & Hread & H).
  rewrite read_uint_range in Hread by assumption.
  injection Hread as <-. exact H.
Qed.

Lemma dpi_bitfield_return (buffer : list byte) (field_name : string)
    (info : FieldInfo) (st st' : DState) :
  dpi_bitfield buffer field_name info st = SReturn st' ->
  (buffer_len buffer < offset st + min_size info)%N.
Proof.
  unfold dpi_bitfield. intros H.
  destruct (buffer_len buffer <? offset st + min_size info)%N eqn:Hlen.
  - now apply N.ltb_lt.
  - destruct (read_value _ _) as [e | [raw | s | f | raw | p | t]];
      try discriminate H.
    destruct (raw =? 0)%N; discriminate H.
Qed.

Lemma dpi_bitfield_return_state (buffer : list byte) (field_name : string)
    (info : FieldInfo) (st st' : DState) :
  dpi_bitfield buffer field_name info st = SReturn st' ->
  st' = insert_message (not_enough field_name)
          (set_dpi_error
             (add_expert InsufficientBytes (not_enough field_name) st)).
Proof.
  unfold dpi_bitfield. intros H.
  destruct (buffer_len buffer <? offset st + min_size info)%N.
  - now injection H as <-.
  - destruct (read_value _ _) as [e | [raw | s | f | raw | p | t]];
      try discriminate H.
    destruct (raw =? 0)%N; discriminate H.
Qed.

(** ** Integer-like fields of an unrecognised size *)

(** C9 (defect): an [int] or a [bitfield] of 5 bytes is declared
    [ProtoField.uint32], by the final [else] of the width selection, and read
    with [:uint()], which raises on 5 bytes: the call ends with an error and
    no report, in both dissectors.  The only unrecognised size that decodes
    is 3, and it reads and consumes 3 bytes, not 4. *)
Theorem odd_size_raises :
  let buffer := [x00; x00; x00; x00; x01] in
  let int_run := dpi_dissector nan_host buffer [("id", field FT_int 5)] in
  let flags_run :=
    dpi_dissector nan_host buffer
      [("flags", with_count 1 (field FT_bitfield 5))] in
  let static_run :=
    static_dissector nan_host buffer [("id", field FT_int 5)] in
  let three_run :=
    dpi_dissector nan_host [x01; x02; x03; x04] [("id", field FT_int 3)] in
  proto_field_type (field FT_int 5) = PF_uint32
  /\ accessor (field FT_int 5) = A_uint
  /\ raised int_run = Some UnsupportedWidth
  /\ report int_run = None
  /\ values int_run = ∅
  /\ raised flags_run = Some UnsupportedWidth
  /\ raised static_run = Some UnsupportedWidth
  /\ proto_field_type (field FT_int 3) = PF_uint32
  /\ values three_run !! "id" = Some (PNum 66051)
  /\ option_map offset (final_state three_run) = Some 3%N.
Proof. repeat split; reflexivity. Qed.

(** ** The binary text and the population count *)

Lemma append_assoc (a b c : string) : (a +:+ b) +:+ c = a +:+ (b +:+ c).
Proof.
  induction a as [| x a IH]; [reflexivity |].
  change (String x ((a +:+ b) +:+ c) = String x (a +:+ (b +:+ c))).
  now rewrite IH.
Qed.

Lemma append_nil_r (s : string) : s +:+ "" = s.
Proof.
  induction s as [| x s IH]; [reflexivity |].
  change (String x (s +:+ "") = String x s). now rewrite IH.
Qed.

Lemma binary_digits_length (num : N) (n : nat) :
  String.length (binary_digits num n) = n.
Proof. induction n as [| n IH]; simpl; [reflexivity | now rewrite IH]. Qed.

(** [bit.band(bit.rshift(num, i), 1) == 1] tests bit [i]. *)
Lemma band_rshift_testbit (num i : N) :
  (N.land (N.shiftr num i) 1 =? 1)%N = N.testbit num i.
Proof.
  rewrite N.testbit_odd.
  destruct (N.shiftr num i) as [| [p | p |]]; reflexivity.
Qed.

Lemma tobit_of_N (n : N) : tobit (Z.of_N n) = (n mod 2 ^ 32)%N.
Proof.
  unfold tobit. change (2 ^ 32)%Z with (Z.of_N (2 ^ 32)).
  now rewrite <- N2Z.inj_mod, N2Z.id.
Qed.

Lemma tobit_small (n : N) : (n < 2 ^ 32)%N -> tobit (Z.of_N n) = n.
Proof. intros H. rewrite tobit_of_N. now apply N.mod_small. Qed.

(** Reading a result of the library back as an argument. *)
Lemma tobit_signed32 (n : N) : (n < 2 ^ 32)%N -> tobit (signed32 n) = n.
Proof.
  intros H. unfold tobit, signed32.
  assert (Hz : (0 <= Z.of_N n < 2 ^ 32)%Z).
  { change (2 ^ 32)%Z with (Z.of_N (2 ^ 32)). lia. }
  destruct (n <? 2 ^ 31)%N.
  - rewrite Z.mod_small by exact Hz. apply N2Z.id.
  - replace (Z.of_N n - 2 ^ 32)%Z with (Z.of_N n + -1 * 2 ^ 32)%Z by lia.
    rewrite Z.mod_add by lia.
    rewrite Z.mod_small by exact Hz. apply N2Z.id.
Qed.

Lemma shiftr_below (x i b : N) : (x < 2 ^ b)%N -> (N.shiftr x i < 2 ^ b)%N.
Proof.
  intros H. rewrite N.shiftr_div_pow2.
  eapply N.le_lt_trans; [| exact H].
  assert (2 ^ i <> 0)%N by (apply N.pow_nonzero; discriminate).
  apply N.Div0.div_le_upper_bound. nia.
Qed.

(** [bit.band(bit.rshift(num, i), 1) == 1] tests bit [i], for [i] below
    32. *)
Lemma bit_test (num : N) (i : nat) :
  (i < 32)%nat ->
  (bit_band (bit_rshift (Z.of_N num) (Z.of_nat i)) 1 =? 1)%Z
  = N.testbit num (N.of_nat i).
Proof.
  intros Hi. unfold bit_band, bit_rshift.
  rewrite tobit_of_N.
  assert ((tobit (Z.of_nat i) mod 32)%N = N.of_nat i) as ->.
  { rewrite <- nat_N_Z, tobit_small.
    - apply N.mod_small. lia.
    - apply N.lt_trans with 32%N; [lia | reflexivity]. }
  set (x := N.shiftr (num mod 2 ^ 32) (N.of_nat i)).
  assert (Hx : (x < 2 ^ 32)%N).
  { apply shiftr_below, N.mod_upper_bound. discriminate. }
  rewrite tobit_signed32 by exact Hx.
  change (tobit 1) with 1%N.
  transitivity (N.land x 1 =? 1)%N.
  - destruct x as [| [p | p |]]; reflexivity.
  - subst x. rewrite band_rshift_testbit.
    apply N.mod_pow2_bits_low. lia.
Qed.

Lemma to_binary_loop_digits (num : N) (todo : nat) (s : string) :
  (todo <= 32)%nat ->
  to_binary_loop num todo s = s +:+ binary_digits num todo.
Proof.
  revert s. induction todo as [| i IH]; intros s Hi;
    cbn [to_binary_loop binary_digits].
  - now rewrite append_nil_r.
  - rewrite IH, append_assoc by lia.
    rewrite bit_test, band_rshift_testbit by lia.
    now destruct (N.testbit num (N.of_nat i)).
Qed.

(** On at most 32 bits [to_binary_str] writes the binary digits. *)
Lemma to_binary_str_digits (num bits : N) :
  (bits <= 32)%N ->
  to_binary_str num bits = binary_digits num (N.to_nat bits).
Proof.
  intros H. unfold to_binary_str. rewrite to_binary_loop_digits by lia.
  reflexivity.
Qed.

Lemma binary_digits_get (num : N) (n i : nat) :
  (i < n)%nat ->
  String.get i (binary_digits num n)
  = Some (if N.testbit num (N.of_nat (n - 1 - i))
          then "1"%char else "0"%char).
Proof.
  revert i. induction n as [| n IH]; intros i Hi; [lia |].
  cbn [binary_digits]. destruct i as [| i]; cbn [String.get].
  - rewrite band_rshift_testbit.
    now replace (S n - 1 - 0)%nat with n by lia.
  - rewrite IH by lia.
    now replace (S n - 1 - S i)%nat with (n - 1 - i)%nat by lia.
Qed.

Lemma binary_digits_ones (num : N) (n : nat) :
  count_ones (binary_digits num n) = bitsum num n.
Proof.
  induction n as [| n IH]; simpl; [reflexivity |].
  rewrite IH, band_rshift_testbit.
  now destruct (N.testbit num (N.of_nat n)).
Qed.

Lemma popcount_loop_acc (p : positive) (count : N) :
  popcount_loop p count = (count + popcount_loop p 0)%N.
Proof.
  revert count.
  induction p as [p IH | p IH |]; intros count; cbn [popcount_loop].
  - rewrite (IH (count + 1)%N), (IH (0 + 1)%N). lia.
  - rewrite (IH (count + 0)%N), (IH (0 + 0)%N). lia.
  - lia.
Qed.

(** One turn of the [while] loop of [popcount]. *)
Lemma popcount_step (x : N) :
  popcount x = ((if N.odd x then 1 else 0) + popcount (N.div2 x))%N.
Proof.
  destruct x as [| [p | p |]]; try reflexivity.
  exact (popcount_loop_acc p 1).
Qed.

Lemma bitsum_step (x : N) (n : nat) :
  bitsum x (S n) = ((if N.odd x then 1 else 0) + bitsum (N.div2 x) n)%N.
Proof.
  induction n as [| n IH].
  - simpl. rewrite N.bit0_odd. reflexivity.
  - change (bitsum x (S (S n)))
      with ((if N.testbit x (N.of_nat (S n)) then 1 else 0)
            + bitsum x (S n))%N.
    rewrite IH. cbn [bitsum].
    rewrite N.div2_spec, N.shiftr_spec', N.add_1_r, Nat2N.inj_succ.
    destruct (N.testbit x (N.succ (N.of_nat n))), (N.odd x); lia.
Qed.

(** [popcount] counts the set bits. *)
Lemma popcount_bitsum (n : nat) (x : N) :
  (x < 2 ^ N.of_nat n)%N -> popcount x = bitsum x n.
Proof.
  revert x. induction n as [| n IH]; intros x Hx.
  - simpl in Hx. assert (x = 0%N) as -> by lia. reflexivity.
  - rewrite popcount_step, bitsum_step. f_equal. apply IH.
    rewrite Nat2N.inj_succ, N.pow_succ_r' in Hx.
    rewrite N.div2_div. apply N.Div0.div_lt_upper_bound. exact Hx.
Qed.

(** C4 (defect): an 8-byte bitfield is declared [ProtoField.uint64] and
    read with [:uint64()], which returns a [UInt64] object.  On a raw value
    of 1, with one bit expected, [popcount] raises in [math.floor]: no text
    is stored and the call ends with an error.  On a raw value of 0
    [popcount] returns 0, the mismatch is recorded, and [to_binary_str]
    raises in [bit.rshift]: again no text is stored. *)
Theorem wide_bitfield_raises :
  let info := with_count 1 (field FT_bitfield 8) in
  let run :=
    dpi_dissector nan_host [x00; x00; x00; x00; x00; x00; x00; x01]
      [("flags", info)] in
  let zero_run :=
    dpi_dissector nan_host [x00; x00; x00; x00; x00; x00; x00; x00]
      [("flags", info)] in
  proto_field_type info = PF_uint64
  /\ accessor info = A_uint64
  /\ raised run = Some NumberExpected
  /\ values run !! "flags" = None
  /\ errors run = []
  /\ report run = None
  /\ raised zero_run = Some NumberExpected
  /\ values zero_run !! "flags" = None
  /\ errors zero_run = ["Bitfield flags expected 1 bits set, got 0"]
  /\ report zero_run = None.
Proof. repeat split; reflexivity. Qed.

(** ** Dynamic arrays *)





(** ** Defects of the emitted code, on concrete packets *)

(** C3 (defect): the static dissector raises on a dynamic length out of
    range, because it inserts into [error_messages], which it never declares;
    the per-IP dissector raises in the decomposition loop when the count does
    not divide the bit width, because [1 << (8 / 3)] has no integer value.
    In both cases no report is written. *)
Theorem exceptions_escape :
  let static_run :=
    static_dissector nan_host
      [x0b; x61; x62; x63; x64; x65; x66; x67; x68; x69; x6a; x6b]
      len_payload in
  let dpi_run :=
    dpi_dissector nan_host [xff] [("v", with_count 3 (field FT_int 1))] in
  raised static_run = Some TableExpected
  /\ report static_run = None
  /\ raised dpi_run = Some NoIntegerRepresentation
  /\ report dpi_run = None.
Proof. repeat split; reflexivity. Qed.

(** C5 (defect): a 1-byte [int] split into 3 groups stores no sub-value at
    all: the loop raises in its first turn, and only the field itself is in
    the table. *)
Theorem uneven_decomposition_raises :
  let run :=
    dpi_dissector nan_host [xff] [("v", with_count 3 (field FT_int 1))] in
  raised run = Some NoIntegerRepresentation
  /\ map_to_list (values run) = [("v", PNum 255)]
  /\ values run !! "v_bf0" = None.
Proof. repeat split; reflexivity. Qed.

(** C7 (defect): when the flags byte is missing, the message "Not enough
    bytes for flags" is recorded and [dpi_error] is set, but the dissector
    returns before it writes the Info column: there is an error and no
    report. *)
Theorem recorded_error_not_reported :
  let run := dpi_dissector nan_host [x00; x05] seq_flags in
  errors run = ["Not enough bytes for flags"]
  /\ fatal run = true
  /\ report run = None.
Proof. repeat split; reflexivity. Qed.

(** C8 (defect): the static dissector still runs the bit-count test and
    flags the tree item, and it raises, writing no summary, on a dynamic
    length out of range. *)
Theorem static_still_validates :
  let flags_run := static_dissector nan_host [x00; x05; x03] seq_flags in
  let length_run :=
    static_dissector nan_host
      [x0b; x61; x62; x63; x64; x65; x66; x67; x68; x69; x6a; x6b]
      len_payload in
  diagnostics flags_run
  = [(BitPopulationMismatch, "Bitfield flags expected 3 bits set, got 2")]
  /\ report flags_run = Some "Static: flags=00000011, seq=5"
  /\ diagnostics length_run
     = [(DynamicLengthOutOfRange, "payload length out of range")]
  /\ raised length_run = Some TableExpected
  /\ report length_run = None.
Proof. repeat split; reflexivity. Qed.

(** The two packets of the two-field description. *)
Example scenario_a :
  report (dpi_dissector nan_host [x00; x05; x07] seq_flags)
  = Some "flags=00000111, seq=5".
Proof. reflexivity. Qed.

Example scenario_b :
  let run := dpi_dissector nan_host [x00; x05; x03] seq_flags in
  errors run = ["Bitfield flags expected 3 bits set, got 2"]
  /\ report run
     = Some "[DPI Error: Bitfield flags expected 3 bits set, got 2]".
Proof. split; reflexivity. Qed.

(** The summary shows the unsigned values. *)
Example long_summary :
  report (dpi_dissector nan_host [xff; xff; xff; xff]
            [("id", field FT_long 4)])
  = Some "id=4294967295".
Proof. reflexivity. Qed.

Example three_byte_int_summary :
  report (dpi_dissector nan_host [x01; x02; x03; x01]
            [("id", field FT_int 3); ("kind", field FT_int 1)])
  = Some "id=66051, kind=1".
Proof. reflexivity. Qed.

(** An 8-byte [int] is a [UInt64] object, printed in decimal. *)
Example eight_byte_int_summary :
  report (dpi_dissector nan_host
            [xff; xff; xff; xff; xff; xff; xff; xff]
            [("id", field FT_int 8)])
  = Some "id=18446744073709551615".
Proof. reflexivity. Qed.

(** [<proto>.fields] of a description with a decomposed field. *)
Example field_list_with_groups :
  generate_field_list
    [("kind", with_count 2 (field FT_int 1));
     ("flags", with_count 3 (field FT_bitfield 1))]
  = ["f_kind"; "f_kind_bf0"; "f_kind_bf1"; "f_flags"].
Proof. reflexivity. Qed.

Example scenario_c :
  let run := dpi_dissector nan_host [x03; x61; x62; x63] len_payload in
  values run !! "payload" = Some (PText [x61; x62; x63])
  /\ errors run = []
  /\ report run = Some "len=3, payload=abc".
Proof. repeat split; reflexivity. Qed.

(** ** The report of a decode that runs through all fields *)

(** The closing expert info leaves the rest of the state as it is. *)
Lemma dpi_final_frame (st : DState) :
  offset (dpi_final st) = offset st
  /\ dpi_error (dpi_final st) = dpi_error st
  /\ error_messages (dpi_final st) = error_messages st
  /\ parsed_values (dpi_final st) = parsed_values st
  /\ locals (dpi_final st) = locals st.
Proof.
  unfold dpi_final. destruct (dpi_error st) eqn:H; cbn; rewrite ?H;
    repeat split.
Qed.

Lemma consistent_frame (st st' : DState) :
  dpi_error st' = dpi_error st ->
  error_messages st' = error_messages st ->
  consistent st -> consistent st'.
Proof. unfold consistent. intros -> ->. tauto. Qed.

Lemma consistent_message (msg : string) (st : DState) :
  consistent (insert_message msg (set_dpi_error st)).
Proof.
  unfold consistent. cbn. split; [| reflexivity].
  intros _ Heq. now apply app_eq_nil in Heq as [_ Heq].
Qed.

Lemma consistent_range_check (host : LuaHost) (field_name : string)
    (info : FieldInfo) (v : ParsedValue) (st : DState) :
  consistent st -> consistent (dpi_range_check host field_name info v st).
Proof.
  unfold dpi_range_check. intros Hst.
  destruct (min_value info), (max_value info); try exact Hst.
  destruct (range_checked (field_type info) && out_of_range host v z z0);
    [apply consistent_message | exact Hst].
Qed.

Lemma dpi_bitfield_consistent (buffer : list byte) (field_name : string)
    (info : FieldInfo) (st st' : DState) :
  dpi_bitfield buffer field_name info st = SNext st' ->
  consistent st -> consistent st'.
Proof.
  intros Hnext Hst.
  apply dpi_bitfield_next in Hnext
    as (_ & raw & _ & _ & _ & Herr & _ & Hflag).
  unfold consistent in *. rewrite Herr, Hflag.
  destruct (count_differs _ _); rewrite ?orb_true_r, ?orb_false_r.
  - split; [| reflexivity].
    intros _ Heq. now apply app_eq_nil in Heq as [_ Heq].
  - now rewrite app_nil_r.
Qed.

Lemma dpi_fixed_consistent (host : LuaHost) (buffer : list byte)
    (field_name : string) (info : FieldInfo) (st st' : DState) :
  dpi_fixed host buffer field_name info st = SNext st' ->
  consistent st -> consistent st'.
Proof.
  unfold dpi_fixed. intros Hnext Hst.
  destruct (buffer_len buffer <? offset st + min_size info)%N;
    [discriminate Hnext |].
  destruct (read_field field_name info _ st) as [e | [v st1]] eqn:Hread;
    [discriminate Hnext |].
  apply read_field_inr in Hread as (_ & _ & Hflag & Herr & _).
  apply decompose_next in Hnext as (_ & Hflag' & Herr' & _).
  cbn in Hflag', Herr'.
  eapply consistent_frame; [exact Hflag' | exact Herr' |].
  apply consistent_range_check.
  now apply (consistent_frame st).
Qed.

Lemma dpi_dynamic_consistent (buffer : list byte) (field_name : string)
    (info : FieldInfo) (st st' : DState) :
  dpi_dynamic buffer field_name info st = SNext st' ->
  consistent st -> consistent st'.
Proof.
  unfold dpi_dynamic. intros Hnext Hst.
  destruct (lookup_var st (size_defining_field info))
    as [[len | s | raw | u | p | t] |];
    try discriminate Hnext.
  set (st1 := if (len <? min_size info)%N || (max_size info <? len)%N
              then _ else _) in Hnext.
  assert (Hst1 : consistent st1).
  { subst st1.
    destruct ((len <? min_size info)%N || (max_size info <? len)%N);
      [apply consistent_message | now apply (consistent_frame st)]. }
  destruct (buffer_len buffer <? offset st1 + len)%N;
    [discriminate Hnext |].
  destruct (read_field field_name info _ st1) as [e | [v st2]] eqn:Hread;
    [discriminate Hnext |].
  apply read_field_inr in Hread as (_ & _ & Hflag & Herr & _).
  apply decompose_next in Hnext as (_ & Hflag' & Herr' & _).
  cbn in Hflag', Herr'.
  eapply consistent_frame; [exact Hflag' | exact Herr' |].
  now apply (consistent_frame st1).
Qed.

Lemma dpi_field_consistent (host : LuaHost) (buffer : list byte)
    (field : string * FieldInfo) (st st' : DState) :
  dpi_field host buffer field st = SNext st' ->
  consistent st -> consistent st'.
Proof.
  destruct field as [field_name info]. unfold dpi_field.
  destruct (field_type info);
    try (destruct (is_dynamic_array info);
         [apply dpi_dynamic_consistent | apply dpi_fixed_consistent]).
  apply dpi_bitfield_consistent.
Qed.

(** An invariant of the blocks holds after all of them. *)
Lemma run_fields_invariant (P : DState -> Prop)
    (block : string * FieldInfo -> DState -> Step) :
  (forall field st st', block field st = SNext st' -> P st -> P st') ->
  forall fields st st',
    run_fields block fields st = SNext st' -> P st -> P st'.
Proof.
  intros Hblock fields.
  induction fields as [| field rest IH]; intros st st' Hrun Hst.
  - injection Hrun as <-. exact Hst.
  - cbn [run_fields] in Hrun.
    destruct (block field st) as [st1 | st1 | st1 e |] eqn:Hstep;
      try discriminate Hrun.
    apply (IH st1 st' Hrun). now apply (Hblock field st).
Qed.

Lemma consistent_initial : consistent initial_state.
Proof. unfold consistent. cbn. split; [discriminate | congruence]. Qed.

(** The sorted parts: ordered, and the same strings as [parts]. *)
Lemma summary_sorted (host : LuaHost) (tbl : gmap string ParsedValue) :
  exists sorted,
    summary host tbl = String.concat ", " sorted
    /\ StronglySorted String.le sorted
    /\ sorted ≡ₚ parts host tbl.
Proof.
  exists (merge_sort String.le (parts host tbl)).
  split; [reflexivity |].
  split; [apply (StronglySorted_merge_sort _) | apply merge_sort_Permutation].
Qed.

(** Every part is [k=v] for an entry of the table, and every entry gives
    one. *)
Lemma parts_entries (host : LuaHost) (tbl : gmap string ParsedValue)
    (part : string) :
  part ∈ parts host tbl
  <-> exists k v, tbl !! k = Some v /\ part = k +:+ "=" +:+ tostring host v.
Proof.
  unfold parts. rewrite list_elem_of_fmap. split.
  - intros ([k v] & -> & Hin). apply elem_of_map_to_list in Hin. eauto.
  - intros (k & v & Hkv & ->). exists (k, v).
    split; [reflexivity | now apply elem_of_map_to_list].
Qed.

(** X1: A per-IP decode that runs through all its fields writes the error report
    when messages were recorded, and the sorted summary otherwise. *)
Theorem finished_report (host : LuaHost) (buffer : list byte)
    (fields : FieldList) (st : DState) (info : string) :
  dpi_dissector host buffer fields = Finished st info ->
  (error_messages st <> []
   /\ info = "[DPI Error: " +:+ String.concat "; " (error_messages st)
               +:+ "]")
  \/ (error_messages st = []
      /\ exists sorted,
           info = String.concat ", " sorted
           /\ StronglySorted String.le sorted
           /\ sorted ≡ₚ parts host (parsed_values st)).
Proof.
  unfold dpi_dissector. intros Hrun.
  destruct (buffer_len buffer =? 0)%N; [discriminate Hrun |].
  destruct (run_fields (dpi_field host buffer) fields initial_state)
    as [st1 | st1 | st1 e |] eqn:Hfields; try discriminate Hrun.
  injection Hrun as <- <-.
  assert (Hst : consistent st1).
  { eapply (run_fields_invariant consistent);
      [apply dpi_field_consistent | exact Hfields | apply consistent_initial]. }
  destruct (dpi_final_frame st1) as (_ & _ & -> & -> & _).
  unfold dpi_info, consistent in *.
  destruct (dpi_error st1).
  - left. split; [now apply Hst | reflexivity].
  - right. split.
    + destruct (error_messages st1); [reflexivity |].
      assert (false = true) by (apply Hst; discriminate). discriminate.
    + apply summary_sorted.
Qed.

(** ** The static dissector *)

Lemma static_clean_frame (st st' : DState) :
  error_messages st' = error_messages st ->
  expert st' = expert st ->
  static_clean st -> static_clean st'.
Proof. unfold static_clean. intros -> ->. tauto. Qed.

(** A static bitfield block that reaches the next block has read a number
    and stored its binary text; it inserts no message. *)
Lemma static_bitfield_next (buffer : list byte) (field_name : string)
    (info : FieldInfo) (st st' : DState) :
  static_bitfield buffer field_name info st = SNext st' ->
  (offset st + min_size info <= buffer_len buffer)%N
  /\ exists raw,
       read_value (if (min_size info =? 8)%N then A_uint64 else A_uint)
         (tvb_range buffer (offset st) (min_size info)) = inr (PNum raw)
       /\ offset st' = (offset st + min_size info)%N
       /\ parsed_values st'
          = <[field_name := PStr (to_binary_str raw (min_size info * 8))]>
              (parsed_values st)
       /\ error_messages st' = error_messages st
       /\ expert st'
          = (expert st
             ++ (if count_differs (popcount raw) (bitfields_count info)
                 then [(BitPopulationMismatch,
                        bit_mismatch field_name (bitfields_count info)
                          (popcount raw))]
                 else []))%list.
Proof.
  unfold static_bitfield. intros H.
  destruct (buffer_len buffer <? offset st + min_size info)%N eqn:Hlen;
    [discriminate H |].
  apply N.ltb_ge in Hlen. split; [exact Hlen |].
  destruct (read_value _ _) as [e | [raw | s | f | raw | p | t]];
    try discriminate H.
  - exists raw. split; [reflexivity |].
    injection H as <-. unfold static_bit_count_test.
    destruct (count_differs _ _); cbn; rewrite ?app_nil_r; repeat split.
  - destruct (raw =? 0)%N; discriminate H.
Qed.

Lemma static_bitfield_clean (buffer : list byte) (field_name : string)
    (info : FieldInfo) (st st' : DState) :
  static_bitfield buffer field_name info st = SNext st' ->
  static_clean st -> static_clean st'.
Proof.
  unfold static_clean. intros Hnext [Herr Hexp].
  apply static_bitfield_next in Hnext
    as (_ & raw & _ & _ & _ & Herr' & Hexp').
  rewrite Herr', Hexp'. split; [exact Herr |].
  apply Forall_app. split; [exact Hexp |].
  destruct (count_differs _ _); now repeat constructor.
Qed.

Lemma static_fixed_clean (buffer : list byte) (field_name : string)
    (info : FieldInfo) (st st' : DState) :
  static_fixed buffer field_name info st = SNext st' ->
  static_clean st -> static_clean st'.
Proof.
  unfold static_fixed. intros Hnext Hst.
  destruct (buffer_len buffer <? offset st + min_size info)%N;
    [discriminate Hnext |].
  destruct (read_field field_name info _ st) as [e | [v st1]] eqn:Hread;
    [discriminate Hnext |].
  apply read_field_inr in Hread as (_ & _ & _ & Herr & Hexp & _).
  apply decompose_next in Hnext as (_ & _ & Herr' & Hexp' & _).
  cbn in Herr', Hexp'.
  apply (static_clean_frame st); [congruence | congruence | exact Hst].
Qed.

Lemma static_dynamic_clean (buffer : list byte) (field_name : string)
    (info : FieldInfo) (st st' : DState) :
  static_dynamic buffer field_name info st = SNext st' ->
  static_clean st -> static_clean st'.
Proof.
  unfold static_dynamic, insert_into_undeclared. intros Hnext Hst.
  destruct (lookup_var st (size_defining_field info))
    as [[len | s | raw | u | p | t] |];
    try discriminate Hnext.
  destruct ((len <? min_size info)%N || (max_size info <? len)%N);
    [discriminate Hnext |].
  cbn [offset declare] in Hnext.
  destruct (buffer_len buffer <? offset st + len)%N; [discriminate Hnext |].
  destruct (read_field field_name info _ _) as [e | [v st1]] eqn:Hread;
    [discriminate Hnext |].
  apply read_field_inr in Hread as (_ & _ & _ & Herr & Hexp & _).
  apply decompose_next in Hnext as (_ & _ & Herr' & Hexp' & _).
  cbn in Herr, Hexp, Herr', Hexp'.
  apply (static_clean_frame st); [congruence | congruence | exact Hst].
Qed.

Lemma static_field_clean (buffer : list byte) (field : string * FieldInfo)
    (st st' : DState) :
  static_field buffer field st = SNext st' ->
  static_clean st -> static_clean st'.
Proof.
  destruct field as [field_name info]. unfold static_field.
  destruct (field_type info);
    try (destruct (is_dynamic_array info);
         [apply static_dynamic_clean | apply static_fixed_clean]).
  apply static_bitfield_clean.
Qed.

(** X2: A static decode that runs through all its fields writes the sorted
    summary after the prefix "Static: ", whatever the values: it has inserted
    no message and made no range test; bit-count mismatches are the only
    expert infos it can carry. *)
Theorem static_finished_report (host : LuaHost) (buffer : list byte)
    (fields : FieldList) (st : DState) (info : string) :
  static_dissector host buffer fields = Finished st info ->
  error_messages st = []
  /\ Forall (fun d => fst d = BitPopulationMismatch) (expert st)
  /\ exists sorted,
       info = "Static: " +:+ String.concat ", " sorted
       /\ StronglySorted String.le sorted
       /\ sorted ≡ₚ parts host (parsed_values st).
Proof.
  unfold static_dissector. intros Hrun.
  destruct (buffer_len buffer =? 0)%N; [discriminate Hrun |].
  destruct (run_fields (static_field buffer) fields initial_state)
    as [st1 | st1 | st1 e |] eqn:Hfields; try discriminate Hrun.
  injection Hrun as <- <-. unfold static_final.
  assert (Hst : static_clean st1).
  { eapply (run_fields_invariant static_clean);
      [apply static_field_clean | exact Hfields |].
    split; [reflexivity | constructor]. }
  destruct Hst as [Herr Hexp]. split; [exact Herr |]. split; [exact Hexp |].
  destruct (summary_sorted host (parsed_values st1))
    as (sorted & Hsum & Hsorted & Hperm).
  exists sorted. unfold static_info. rewrite Hsum. auto.
Qed.

(** ** Decomposition into bit groups, when the count divides the width *)

Lemma to_uint_nonnil (n : N) : N.to_uint n <> Decimal.Nil.
Proof.
  destruct n as [| p]; [discriminate |].
  apply DecimalPos.Unsigned.to_uint_nonnil.
Qed.

Lemma dec_inj (n m : N) : dec n = dec m -> n = m.
Proof.
  unfold dec. intros H.
  apply (f_equal NilZero.uint_of_string) in H.
  rewrite !NilZero.usu in H by apply to_uint_nonnil.
  injection H as H. now apply DecimalN.Unsigned.to_uint_inj.
Qed.

(** Distinct indices give distinct keys. *)
Lemma bf_key_inj (field_name : string) (i j : N) :
  field_name +:+ bf_suffix i = field_name +:+ bf_suffix j -> i = j.
Proof.
  intros H. apply String.app_inj in H. unfold bf_suffix in H.
  apply String.app_inj in H. now apply dec_inj.
Qed.

Lemma bf_loop_lookup (field_name : string) (raw count bpf : N)
    (todo : nat) (i j : N) (tbl : gmap string ParsedValue) :
  bf_loop field_name raw count bpf todo i tbl !! (field_name +:+ bf_suffix j)
  = if ((i <=? j) && (j <? i + N.of_nat todo))%N
    then Some (number (bf_value raw count bpf j))
    else tbl !! (field_name +:+ bf_suffix j).
Proof.
  revert i tbl. induction todo as [| todo IH]; intros i tbl.
  - cbn [bf_loop].
    destruct (N.leb_spec i j), (N.ltb_spec j (i + N.of_nat 0)); cbn;
      try reflexivity; lia.
  - cbn [bf_loop]. rewrite IH.
    destruct (N.eq_dec i j) as [-> | Hne].
    + assert (((j + 1 <=? j) && (j <? j + 1 + N.of_nat todo))%N = false)
        as -> by (apply andb_false_iff; left; apply N.leb_gt; lia).
      assert (((j <=? j) && (j <? j + N.of_nat (S todo)))%N = true)
        as -> by (apply andb_true_iff; split;
                  [apply N.leb_le | apply N.ltb_lt]; lia).
      apply lookup_insert_eq.
    + rewrite lookup_insert_ne
        by (intros Heq; apply bf_key_inj in Heq; congruence).
      assert (((i + 1 <=? j) && (j <? i + 1 + N.of_nat todo))%N
              = ((i <=? j) && (j <? i + N.of_nat (S todo)))%N) as ->;
        [| reflexivity].
      destruct (N.leb_spec (i + 1) j), (N.ltb_spec j (i + 1 + N.of_nat todo)),
               (N.leb_spec i j), (N.ltb_spec j (i + N.of_nat (S todo)));
        cbn; try reflexivity; lia.
Qed.

(** The mask of [w] bits, for [w] up to 32. *)
Lemma tobit_mask (w : N) :
  (w <= 32)%N -> tobit (Z.shiftl 1 (Z.of_N w) - 1) = N.ones w.
Proof.
  intros Hw. rewrite Z.shiftl_1_l, N.ones_equiv.
  change 2%Z with (Z.of_N 2). rewrite <- N2Z.inj_pow.
  assert (Hp : (1 <= 2 ^ w <= 2 ^ 32)%N).
  { split.
    - assert (2 ^ w <> 0)%N by (apply N.pow_nonzero; discriminate). lia.
    - apply N.pow_le_mono_r; [discriminate | exact Hw]. }
  unfold tobit. rewrite Z.mod_small.
  - lia.
  - change (2 ^ 32)%Z with (Z.of_N (2 ^ 32)). lia.
Qed.

(** On a 32-bit number, a group narrower than 32 bits is the quotient by
    the weight of its position, modulo [2 ^ width]: no sign appears. *)
Lemma bf_value_div_mod (raw count w i : N) :
  (raw < 2 ^ 32)%N -> (w < 32)%N -> ((count - 1 - i) * w < 32)%N ->
  bf_value raw count w i
  = Z.of_N ((raw / 2 ^ ((count - 1 - i) * w)) mod 2 ^ w).
Proof.
  intros Hraw Hw Hshift. unfold bf_value, bit_band, bit_rshift.
  set (shift := ((count - 1 - i) * w)%N) in *.
  rewrite (tobit_small raw) by exact Hraw.
  rewrite (tobit_small shift)
    by (apply N.lt_trans with 32%N; [exact Hshift | reflexivity]).
  rewrite (N.mod_small shift 32) by exact Hshift.
  rewrite tobit_signed32 by (apply shiftr_below; exact Hraw).
  rewrite tobit_mask by lia.
  rewrite N.land_ones, N.shiftr_div_pow2.
  unfold signed32.
  assert (H : ((raw / 2 ^ shift) mod 2 ^ w < 2 ^ 31)%N).
  { eapply N.lt_le_trans.
    - apply N.mod_upper_bound, N.pow_nonzero. discriminate.
    - apply N.pow_le_mono_r; [discriminate | lia]. }
  apply N.ltb_lt in H. now rewrite H.
Qed.

Lemma number_of_N (n : N) : number (Z.of_N n) = PNum n.
Proof. now destruct n. Qed.

(** The first [k] groups, joined, are the bits of [raw] above the remaining
    [count - k] groups. *)
Lemma join_groups_prefix (raw count w : N) (k : nat) :
  (raw < 2 ^ (count * w))%N ->
  (N.of_nat k <= count)%N ->
  join_groups w
    (map (fun i => ((raw / 2 ^ ((count - 1 - N.of_nat i) * w)) mod 2 ^ w)%N)
         (seq 0 k))
  = (raw / 2 ^ ((count - N.of_nat k) * w))%N.
Proof.
  unfold join_groups. intros Hraw. induction k as [| k IH]; intros Hk.
  - cbn [seq map fold_left]. rewrite N.sub_0_r.
    symmetry. now apply N.div_small.
  - rewrite seq_S, map_app, fold_left_app, IH by lia.
    cbn [map fold_left Nat.add].
    replace (count - N.of_nat k)%N with (count - 1 - N.of_nat k + 1)%N by lia.
    replace (count - N.of_nat (S k))%N with (count - 1 - N.of_nat k)%N by lia.
    set (s := (count - 1 - N.of_nat k)%N).
    rewrite N.mul_add_distr_r, N.mul_1_l, N.pow_add_r, <- N.Div0.div_div.
    set (x := (raw / 2 ^ (s * w))%N).
    pose proof (N.Div0.div_mod x (2 ^ w)). lia.
Qed.

(** The shifts of the groups of a number of at most 32 bits. *)
Lemma group_shift_bound (count w i : N) :
  (count * w <= 32)%N -> (1 <= w)%N -> ((count - 1 - i) * w < 32)%N.
Proof. intros Hcw Hw. nia. Qed.

(** X3: When the count divides the bit width, an integer-like fixed field of 1
    to 4 bytes, split into groups narrower than 32 bits, stores exactly the
    sub-values [<name>_bf0 .. <name>_bf{count-1}]: each is a group of
    [W * 8 / count] bits of the raw value, the first one most significant,
    within [0, 2 ^ (W * 8 / count) - 1], and the groups joined give the raw
    value back. *)
Theorem even_decomposition (host : LuaHost) (buffer : list byte)
    (field_name : string) (info : FieldInfo) (st : DState) (count : N) :
  integer_like (field_type info) = true ->
  is_dynamic_array info = false ->
  decomposition_count info = Some count ->
  (1 <= min_size info <= 4)%N ->
  ((min_size info * 8) mod count = 0)%N ->
  (min_size info * 8 / count < 32)%N ->
  (offset st + min_size info <= buffer_len buffer)%N ->
  let raw := be_uint (tvb_range buffer (offset st) (min_size info)) in
  let w := (min_size info * 8 / count)%N in
  exists st',
    dpi_field host buffer (field_name, info) st = SNext st'
    /\ (forall i,
          parsed_values st' !! (field_name +:+ bf_suffix i)
          = if (i <? count)%N
            then Some (PNum (Z.to_N (bf_value raw count w i)))
            else parsed_values st !! (field_name +:+ bf_suffix i))
    /\ (forall i, (0 <= bf_value raw count w i <= 2 ^ Z.of_N w - 1)%Z)
    /\ join_groups w
         (map (fun i => Z.to_N (bf_value raw count w (N.of_nat i)))
              (seq 0 (N.to_nat count)))
       = raw.
Proof.
  intros Hint Hdyn Hcount Hsize Hdiv Hnarrow Hlen raw w.
  assert (Hfield : dpi_field host buffer (field_name, info) st
                   = dpi_fixed host buffer field_name info st).
  { unfold dpi_field. rewrite Hdyn.
    destruct (field_type info); try reflexivity. discriminate Hint. }
  assert (Hcw : (count * w = 8 * min_size info)%N).
  { subst w. assert (count <> 0)%N.
    { unfold decomposition_count in Hcount.
      destruct (bitfields_count info) as [c |]; [| discriminate Hcount].
      destruct (N.eqb_spec c 0); [discriminate Hcount |].
      now injection Hcount as <-. }
    pose proof (N.Div0.div_mod (min_size info * 8) count). lia. }
  assert (Hraw : (raw < 2 ^ (8 * min_size info))%N).
  { pose proof (be_uint_bound
                  (tvb_range buffer (offset st) (min_size info))) as Hb.
    now rewrite tvb_range_length in Hb. }
  assert (Hraw32 : (raw < 2 ^ 32)%N).
  { eapply N.lt_le_trans; [exact Hraw |].
    apply N.pow_le_mono_r; [discriminate | lia]. }
  assert (Hgroup : forall i,
             bf_value raw count w i
             = Z.of_N ((raw / 2 ^ ((count - 1 - i) * w)) mod 2 ^ w)).
  { intros i. apply bf_value_div_mod; [exact Hraw32 | exact Hnarrow |].
    apply group_shift_bound; nia. }
  rewrite Hfield. unfold dpi_fixed.
  pose proof Hlen as Hlen'. apply N.ltb_ge in Hlen'. rewrite Hlen'.
  unfold read_field. rewrite integer_accessor by now left.
  rewrite read_uint_range by assumption.
  fold raw. unfold decompose. rewrite Hcount.
  apply N.eqb_eq in Hdiv as Hdiv'. rewrite Hdiv'. fold w.
  eexists. split; [reflexivity |]. cbn [parsed_values set_values advance].
  destruct (dpi_range_check_frame host field_name info (PNum raw)
              (store field_name (PNum raw)
                 (declare (field_name +:+ "_item") None
                    (declare field_name (Some (PNum raw))
                       (declare_bytes field_name info
                          (tvb_range buffer (offset st) (min_size info))
                          st)))))
    as (_ & Hval & _).
  rewrite Hval. clear Hval. split; [| split].
  - intros i. rewrite bf_loop_lookup, N2Nat.id, N.add_0_l.
    replace (0 <=? i)%N with true by (symmetry; apply N.leb_le; lia).
    cbn [andb].
    destruct (i <? count)%N.
    + now rewrite Hgroup, number_of_N, N2Z.id.
    + cbn [parsed_values store].
      rewrite lookup_insert_ne by (apply not_eq_sym, bf_key_fresh).
      unfold declare_bytes. now destruct (accessor info).
  - intros i. rewrite Hgroup.
    assert (Hm : (2 ^ w <> 0)%N) by (apply N.pow_nonzero; discriminate).
    pose proof (N.mod_upper_bound (raw / 2 ^ ((count - 1 - i) * w)) (2 ^ w)
                  Hm) as Hg.
    change 2%Z with (Z.of_N 2). rewrite <- N2Z.inj_pow.
    revert Hg. generalize ((raw / 2 ^ ((count - 1 - i) * w)) mod 2 ^ w)%N.
    generalize (2 ^ w)%N. intros m g Hg. lia.
  - rewrite (map_ext _
               (fun i => ((raw / 2 ^ ((count - 1 - N.of_nat i) * w))
                          mod 2 ^ w)%N))
      by (intros i; now rewrite Hgroup, N2Z.id).
    rewrite join_groups_prefix.
    + rewrite N2Nat.id, N.sub_diag, N.mul_0_l. apply N.div_1_r.
    + now rewrite Hcw.
    + rewrite N2Nat.id. lia.
Qed.

(** The byte [a7] in four groups of two bits: 2, 2, 1, 3. *)
Example even_decomposition_a7 :
  map (fun k => values
         (dpi_dissector nan_host [xa7] [("v", with_count 4 (field FT_int 1))])
         !! k)
      ["v"; "v_bf0"; "v_bf1"; "v_bf2"; "v_bf3"; "v_bf4"]
  = [Some (PNum 167); Some (PNum 2); Some (PNum 2);
     Some (PNum 1); Some (PNum 3); None].
Proof. reflexivity. Qed.

(** A single group of 32 bits is a signed number: [ff ff ff ff] gives -1. *)
Example whole_word_group :
  let run :=
    dpi_dissector nan_host [xff; xff; xff; xff]
      [("v", with_count 1 (field FT_int 4))] in
  values run !! "v_bf0" = Some (PNeg 1)
  /\ report run = Some "v=4294967295, v_bf0=-1".
Proof. split; reflexivity. Qed.

(** An 8-byte field is a [UInt64] object, which [bit.rshift] rejects. *)
Example wide_decomposition_raises :
  raised (dpi_dissector nan_host [x00; x00; x00; x00; x00; x00; x00; x07]
            [("v", with_count 2 (field FT_int 8))])
  = Some NumberExpected.
Proof. reflexivity. Qed.

(** * Further properties of the emitted dissectors *)

(** On the two-field description with a flags byte of two set bits. *)
Lemma finished_report_witness :
  exists st info,
    dpi_dissector nan_host [x00; x05; x03] seq_flags = Finished st info
    /\ ((error_messages st <> []
         /\ info = "[DPI Error: " +:+ String.concat "; " (error_messages st)
                     +:+ "]")
        \/ (error_messages st = []
            /\ exists sorted,
                 info = String.concat ", " sorted
                 /\ StronglySorted String.le sorted
                 /\ sorted ≡ₚ parts nan_host (parsed_values st))).
Proof.
  eexists _, _. split; [reflexivity |].
  apply (finished_report nan_host [x00; x05; x03] seq_flags). reflexivity.
Defined.

(** On the same packet, in the static dissector. *)
Lemma static_finished_report_witness :
  exists st info,
    static_dissector nan_host [x00; x05; x03] seq_flags = Finished st info
    /\ error_messages st = []
    /\ Forall (fun d => fst d = BitPopulationMismatch) (expert st)
    /\ exists sorted,
         info = "Static: " +:+ String.concat ", " sorted
         /\ StronglySorted String.le sorted
         /\ sorted ≡ₚ parts nan_host (parsed_values st).
Proof.
  eexists _, _. split; [reflexivity |].
  apply (static_finished_report nan_host [x00; x05; x03] seq_flags).
  reflexivity.
Defined.

(** On the byte [a7] split into four groups of two bits. *)
Lemma even_decomposition_witness :
  exists st',
    dpi_field nan_host [xa7] ("v", with_count 4 (field FT_int 1))
      initial_state = SNext st'
    /\ (forall i,
          parsed_values st' !! ("v" +:+ bf_suffix i)
          = if (i <? 4)%N then Some (PNum (Z.to_N (bf_value 167 4 2 i)))
            else None)
    /\ (forall i, (0 <= bf_value 167 4 2 i <= 3)%Z)
    /\ join_groups 2
         (map (fun i => Z.to_N (bf_value 167 4 2 (N.of_nat i))) (seq 0 4))
       = 167%N.
Proof.
  apply (even_decomposition nan_host [xa7] "v" (with_count 4 (field FT_int 1))
           initial_state 4%N).
  - reflexivity.
  - reflexivity.
  - reflexivity.
  - split; vm_compute; discriminate.
  - reflexivity.
  - reflexivity.
  - vm_compute. discriminate.
Defined.

(** ** The range test of the per-IP dissector *)

(** X4: An integer-like fixed field of 1 to 4 bytes with both bounds, whose
    bytes are in the buffer, stores its unsigned value whether or not it
    lies within the bounds; the message "<name> out of range" and the expert
    info are appended exactly when the value is below [min_value] or above
    [max_value], and the block never returns. *)
Theorem range_validation (host : LuaHost) (buffer : list byte)
    (field_name : string) (info : FieldInfo) (st : DState) (lo hi : Z) :
  integer_like (field_type info) = true ->
  is_dynamic_array info = false ->
  min_value info = Some lo ->
  max_value info = Some hi ->
  (1 <= min_size info <= 4)%N ->
  (offset st + min_size info <= buffer_len buffer)%N ->
  let raw := be_uint (tvb_range buffer (offset st) (min_size info)) in
  let outside := ((Z.of_N raw <? lo) || (hi <? Z.of_N raw))%Z in
  (forall st',
      dpi_field host buffer (field_name, info) st = SNext st' ->
      parsed_values st' !! field_name = Some (PNum raw)
      /\ error_messages st'
         = (error_messages st
            ++ (if outside then [field_name +:+ " out of range"] else []))%list
      /\ expert st'
         = (expert st
            ++ (if outside
                then [(ValueOutOfRange,
                       "Value out of range for " +:+ field_name)]
                else []))%list)
  /\ (forall st', dpi_field host buffer (field_name, info) st <> SReturn st')
  /\ (decomposition_count info = None ->
      exists st', dpi_field host buffer (field_name, info) st = SNext st').
Proof.
  intros Hint Hdyn Hlo Hhi Hsize Hlen raw outside.
  assert (Hfield : dpi_field host buffer (field_name, info) st
                   = dpi_fixed host buffer field_name info st).
  { unfold dpi_field. rewrite Hdyn.
    destruct (field_type info); try reflexivity. discriminate Hint. }
  assert (Hread : read_value (accessor info)
                    (tvb_range buffer (offset st) (min_size info))
                  = inr (PNum raw)).
  { rewrite integer_accessor by now left. now apply read_uint_range. }
  rewrite Hfield. split; [| split].
  - intros st' Hnext.
    pose proof (dpi_fixed_next _ _ _ _ _ _ Hnext) as (_ & _ & v & Hv & Hval).
    rewrite Hread in Hv.
    injection Hv as <-. split; [exact Hval |].
    unfold dpi_fixed in Hnext.
    apply N.ltb_ge in Hlen. rewrite Hlen in Hnext.
    unfold read_field in Hnext.
    rewrite Hread in Hnext.
    apply decompose_next in Hnext as (_ & _ & Herr & Hexp & _).
    rewrite Herr, Hexp. cbn [error_messages expert advance].
    unfold dpi_range_check. rewrite Hlo, Hhi.
    assert (Hrc : range_checked (field_type info) = true)
      by (destruct (field_type info); try discriminate Hint; reflexivity).
    rewrite Hrc. cbn [andb out_of_range]. fold raw. fold outside.
    unfold declare_bytes.
    destruct outside, (accessor info); cbn; rewrite ?app_nil_r; split;
      reflexivity.
  - intros st' Hret. apply dpi_fixed_return in Hret. lia.
  - intros Hcount. now apply dpi_fixed_integer_runs.
Qed.

(** On a sequence number of 5 against the bounds 10..20. *)
Lemma range_validation_witness :
  exists st',
    dpi_field nan_host [x00; x05] ("seq", with_range 10 20 (field FT_int 2))
      initial_state = SNext st'
    /\ parsed_values st' !! "seq" = Some (PNum 5)
    /\ error_messages st' = ["seq out of range"]
    /\ expert st' = [(ValueOutOfRange, "Value out of range for seq")].
Proof.
  destruct (range_validation nan_host [x00; x05] "seq"
              (with_range 10 20 (field FT_int 2)) initial_state 10 20
              eq_refl eq_refl eq_refl eq_refl
              ltac:(split; vm_compute; discriminate)
              ltac:(vm_compute; discriminate))
    as (Hnext & _ & Hex).
  destruct (Hex eq_refl) as [st' Hst'].
  exists st'. split; [exact Hst' |]. exact (Hnext st' Hst').
Defined.

(** X5: A fixed-length field that is not a bitfield is never tested against
    bounds when a bound is missing or when its type is none of [int], [bool],
    [long], [float], [double]: the block adds no message and no expert
    info. *)
Theorem no_range_test (host : LuaHost) (buffer : list byte)
    (field_name : string) (info : FieldInfo) (st st' : DState) :
  field_type info <> FT_bitfield ->
  is_dynamic_array info = false ->
  min_value info = None \/ max_value info = None
  \/ range_checked (field_type info) = false ->
  dpi_field host buffer (field_name, info) st = SNext st' ->
  error_messages st' = error_messages st
  /\ expert st' = expert st
  /\ dpi_error st' = dpi_error st.
Proof.
  intros Hty Hdyn Hnone Hnext.
  assert (Hfield : dpi_field host buffer (field_name, info) st
                   = dpi_fixed host buffer field_name info st).
  { unfold dpi_field. rewrite Hdyn.
    destruct (field_type info); try reflexivity. congruence. }
  rewrite Hfield in Hnext. unfold dpi_fixed in Hnext.
  destruct (buffer_len buffer <? offset st + min_size info)%N;
    [discriminate Hnext |].
  destruct (read_field field_name info _ st) as [e | [v st1]] eqn:Hread;
    [discriminate Hnext |].
  apply read_field_inr in Hread as (_ & _ & Hflag & Herr & Hexp & _).
  apply decompose_next in Hnext as (_ & Hflag' & Herr' & Hexp' & _).
  cbn [dpi_error error_messages expert advance] in Hflag', Herr', Hexp'.
  assert (Hrc : dpi_range_check host field_name info v
                  (store field_name v
                     (declare (field_name +:+ "_item") None st1))
                = store field_name v
                    (declare (field_name +:+ "_item") None st1)).
  { unfold dpi_range_check.
    destruct (min_value info) as [lo |], (max_value info) as [hi |];
      try reflexivity.
    destruct Hnone as [Hn | [Hn | Hn]]; try discriminate Hn.
    now rewrite Hn. }
  rewrite Hrc in Hflag', Herr', Hexp'. cbn in Hflag', Herr', Hexp'.
  repeat split; congruence.
Qed.

(** On a text field that carries bounds. *)
Lemma no_range_test_witness :
  exists st',
    dpi_field nan_host [x7a] ("tag", with_range 0 5 (field FT_char 1))
      initial_state = SNext st'
    /\ error_messages st' = [] /\ expert st' = [] /\ dpi_error st' = false.
Proof.
  eexists. split; [reflexivity |].
  apply (no_range_test nan_host [x7a] "tag" (with_range 0 5 (field FT_char 1))
           initial_state).
  - discriminate.
  - reflexivity.
  - right; right; reflexivity.
  - reflexivity.
Defined.

(** ** The cursor *)

Lemma run_fields_state_invariant (P : DState -> Prop)
    (block : string * FieldInfo -> DState -> Step) :
  (forall field st st',
      step_state (block field st) = Some st' -> P st -> P st') ->
  forall fields st st',
    step_state (run_fields block fields st) = Some st' -> P st -> P st'.
Proof.
  intros Hblock fields.
  induction fields as [| field rest IH]; intros st st' Hrun Hst.
  - injection Hrun as <-. exact Hst.
  - cbn [run_fields] in Hrun.
    pose proof (Hblock field st) as Hb.
    destruct (block field st) as [st1 | st1 | st1 e |];
      try (apply (Hb st'); assumption).
    apply (IH st1 st' Hrun). now apply Hb.
Qed.

Lemma decompose_state_offset (field_name : string) (info : FieldInfo)
    (v : ParsedValue) (bits : N) (st st' : DState) :
  step_state (decompose field_name info v bits st) = Some st' ->
  offset st' = offset st.
Proof.
  unfold decompose.
  destruct (decomposition_count info) as [count |].
  - destruct (bits mod count =? 0)%N.
    + destruct v; cbn; intros H; try discriminate H;
        now injection H as <-.
    + cbn. intros H. now injection H as <-.
  - cbn. intros H. now injection H as <-.
Qed.

Lemma dpi_bitfield_cursor (buffer : list byte) (field_name : string)
    (info : FieldInfo) (st st' : DState) :
  step_state (dpi_bitfield buffer field_name info st) = Some st' ->
  (offset st <= buffer_len buffer)%N ->
  (offset st' <= buffer_len buffer)%N.
Proof.
  unfold dpi_bitfield, dpi_bit_count_test. intros Hstep Hst.
  destruct (N.ltb_spec (buffer_len buffer) (offset st + min_size info));
    [cbn in Hstep; injection Hstep as <-; cbn; lia |].
  destruct (read_value _ _) as [e | [raw | s | f | raw | p | t]];
    cbn in Hstep; try discriminate Hstep.
  - injection Hstep as <-. lia.
  - injection Hstep as <-. destruct (count_differs _ _); cbn; lia.
  - destruct (raw =? 0)%N; cbn in Hstep; injection Hstep as <-;
      try destruct (count_differs _ _); cbn; lia.
Qed.

Lemma static_bitfield_cursor (buffer : list byte) (field_name : string)
    (info : FieldInfo) (st st' : DState) :
  step_state (static_bitfield buffer field_name info st) = Some st' ->
  (offset st <= buffer_len buffer)%N ->
  (offset st' <= buffer_len buffer)%N.
Proof.
  unfold static_bitfield, static_bit_count_test. intros Hstep Hst.
  destruct (N.ltb_spec (buffer_len buffer) (offset st + min_size info));
    [cbn in Hstep; injection Hstep as <-; cbn; lia |].
  destruct (read_value _ _) as [e | [raw | s | f | raw | p | t]];
    cbn in Hstep; try discriminate Hstep.
  - injection Hstep as <-. lia.
  - injection Hstep as <-. destruct (count_differs _ _); cbn; lia.
  - destruct (raw =? 0)%N; cbn in Hstep; injection Hstep as <-;
      try destruct (count_differs _ _); cbn; lia.
Qed.

Lemma dpi_field_cursor (host : LuaHost) (buffer : list byte)
    (field : string * FieldInfo) (st st' : DState) :
  step_state (dpi_field host buffer field st) = Some st' ->
  (offset st <= buffer_len buffer)%N ->
  (offset st' <= buffer_len buffer)%N.
Proof.
  destruct field as [field_name info]. intros Hstep Hst.
  assert (Hfixed : step_state (dpi_fixed host buffer field_name info st)
                   = Some st' -> (offset st' <= buffer_len buffer)%N).
  { unfold dpi_fixed.
    destruct (N.ltb_spec (buffer_len buffer) (offset st + min_size info));
      [cbn; intros H'; now injection H' as <- |].
    destruct (read_field field_name info _ st) as [e | [v st1]] eqn:Hread;
      [cbn; intros H'; now injection H' as <- |].
    apply read_field_inr in Hread as (_ & Hoff & _).
    intros H'. apply decompose_state_offset in H'. cbn in H'.
    destruct (dpi_range_check_frame host field_name info v
                (store field_name v
                   (declare (field_name +:+ "_item") None st1)))
      as (Ho & _).
    rewrite Ho in H'. cbn in H'. lia. }
  assert (Hdynamic : step_state (dpi_dynamic buffer field_name info st)
                     = Some st' -> (offset st' <= buffer_len buffer)%N).
  { unfold dpi_dynamic.
    destruct (lookup_var st (size_defining_field info))
      as [[len | s | raw | u | p | t] |];
      try (cbn; intros H'; first [discriminate H' | now injection H' as <-]).
    set (st1 := if (len <? min_size info)%N || (max_size info <? len)%N
                then _ else _).
    assert (Hoff1 : offset st1 = offset st)
      by (subst st1;
          destruct ((len <? min_size info)%N || (max_size info <? len)%N);
          reflexivity).
    destruct (N.ltb_spec (buffer_len buffer) (offset st1 + len));
      [cbn; intros H'; injection H' as <-; cbn; lia |].
    destruct (read_field field_name info _ st1) as [e | [v st2]] eqn:Hread;
      [cbn; intros H'; injection H' as <-; lia |].
    apply read_field_inr in Hread as (_ & Hoff & _).
    intros H'. apply decompose_state_offset in H'. cbn in H'. lia. }
  unfold dpi_field in Hstep.
  destruct (field_type info);
    try (destruct (is_dynamic_array info); [now apply Hdynamic |
                                            now apply Hfixed]).
  now apply (dpi_bitfield_cursor buffer field_name info st).
Qed.

Lemma static_field_cursor (buffer : list byte)
    (field : string * FieldInfo) (st st' : DState) :
  step_state (static_field buffer field st) = Some st' ->
  (offset st <= buffer_len buffer)%N ->
  (offset st' <= buffer_len buffer)%N.
Proof.
  destruct field as [field_name info]. intros Hstep Hst.
  assert (Hfixed : step_state (static_fixed buffer field_name info st)
                   = Some st' -> (offset st' <= buffer_len buffer)%N).
  { unfold static_fixed.
    destruct (N.ltb_spec (buffer_len buffer) (offset st + min_size info));
      [cbn; intros H'; now injection H' as <- |].
    destruct (read_field field_name info _ st) as [e | [v st1]] eqn:Hread;
      [cbn; intros H'; now injection H' as <- |].
    apply read_field_inr in Hread as (_ & Hoff & _).
    intros H'. apply decompose_state_offset in H'. cbn in H'. lia. }
  assert (Hdynamic : step_state (static_dynamic buffer field_name info st)
                     = Some st' -> (offset st' <= buffer_len buffer)%N).
  { unfold static_dynamic, insert_into_undeclared.
    destruct (lookup_var st (size_defining_field info))
      as [[len | s | raw | u | p | t] |];
      try (cbn; intros H'; first [discriminate H' | now injection H' as <-]).
    destruct ((len <? min_size info)%N || (max_size info <? len)%N);
      [cbn; intros H'; now injection H' as <- |].
    cbn [offset declare].
    destruct (N.ltb_spec (buffer_len buffer) (offset st + len));
      [cbn; intros H'; now injection H' as <- |].
    destruct (read_field field_name info _ _) as [e | [v st2]] eqn:Hread;
      [cbn; intros H'; now injection H' as <- |].
    apply read_field_inr in Hread as (_ & Hoff & _).
    intros H'. apply decompose_state_offset in H'. cbn in H', Hoff. lia. }
  unfold static_field in Hstep.
  destruct (field_type info);
    try (destruct (is_dynamic_array info); [now apply Hdynamic |
                                            now apply Hfixed]).
  now apply (static_bitfield_cursor buffer field_name info st).
Qed.

(** The state a call ends in is the state its last block ended in, up to
    the closing code. *)
Lemma finish_final_state (final : DState -> DState)
    (report : DState -> string) (s : Step) (st : DState) :
  final_state (finish final report s) = Some st ->
  exists st0, step_state s = Some st0 /\ (st = st0 \/ st = final st0).
Proof.
  destruct s; cbn; intros H; try discriminate H; injection H as <-; eauto.
Qed.

(** X6: However a call of either dissector ends - finished, returned from a
    bounds check or raised - its cursor is within the buffer: no block ever
    reads or moves past the last byte. *)
Theorem cursor_within_buffer (host : LuaHost) (buffer : list byte)
    (fields : FieldList) (st : DState) :
  final_state (dpi_dissector host buffer fields) = Some st
  \/ final_state (static_dissector host buffer fields) = Some st ->
  (offset st <= buffer_len buffer)%N.
Proof.
  unfold dpi_dissector, static_dissector.
  destruct (buffer_len buffer =? 0)%N; [intros [H | H]; discriminate H |].
  intros [H | H]; apply finish_final_state in H as (st0 & H & Hst).
  - assert (Hoff : offset st = offset st0).
    { destruct Hst as [-> | ->]; [reflexivity |].
      now destruct (dpi_final_frame st0) as (-> & _). }
    rewrite Hoff.
    eapply (run_fields_state_invariant
              (fun st => (offset st <= buffer_len buffer)%N));
      [apply dpi_field_cursor | exact H | cbn; lia].
  - assert (st = st0) as -> by (destruct Hst as [-> | ->]; reflexivity).
    eapply (run_fields_state_invariant
              (fun st => (offset st <= buffer_len buffer)%N));
      [apply static_field_cursor | exact H | cbn; lia].
Qed.

(** On the two-field description, cut short after the sequence number. *)
Lemma cursor_within_buffer_witness :
  exists st,
    dpi_dissector nan_host [x00; x05] seq_flags = Aborted st
    /\ (offset st <= 2)%N.
Proof.
  eexists. split; [reflexivity |].
  apply (cursor_within_buffer nan_host [x00; x05] seq_flags).
  left. reflexivity.
Defined.

(** ** Bytes after the last field *)

Lemma buffer_len_app (buffer extra : list byte) :
  buffer_len (buffer ++ extra) = (buffer_len buffer + buffer_len extra)%N.
Proof. unfold buffer_len. rewrite length_app. lia. Qed.

Lemma tvb_range_app (buffer extra : list byte) (off len : N) :
  (off + len <= buffer_len buffer)%N ->
  tvb_range (buffer ++ extra) off len = tvb_range buffer off len.
Proof.
  unfold buffer_len, tvb_range. intros H.
  rewrite drop_app_le by lia.
  rewrite take_app_le; [reflexivity |].
  rewrite length_drop. lia.
Qed.

Lemma bounds_check_app (buffer extra : list byte) (need : N) :
  (buffer_len buffer <? need)%N = false ->
  (buffer_len (buffer ++ extra) <? need)%N = false.
Proof.
  rewrite !N.ltb_ge, buffer_len_app. lia.
Qed.

(** A block that reaches the next block does the same on a longer buffer. *)
Lemma dpi_field_app (host : LuaHost) (buffer extra : list byte)
    (field : string * FieldInfo) (st st' : DState) :
  dpi_field host buffer field st = SNext st' ->
  dpi_field host (buffer ++ extra) field st = SNext st'.
Proof.
  destruct field as [field_name info]. unfold dpi_field.
  assert (Hfixed : dpi_fixed host buffer field_name info st = SNext st' ->
                   dpi_fixed host (buffer ++ extra) field_name info st
                   = SNext st').
  { unfold dpi_fixed. intros Hnext.
    destruct (buffer_len buffer <? offset st + min_size info)%N eqn:Hlen;
      [discriminate Hnext |].
    rewrite (bounds_check_app _ extra _ Hlen).
    rewrite tvb_range_app by now apply N.ltb_ge. exact Hnext. }
  assert (Hdynamic : dpi_dynamic buffer field_name info st = SNext st' ->
                     dpi_dynamic (buffer ++ extra) field_name info st
                     = SNext st').
  { unfold dpi_dynamic. intros Hnext.
    destruct (lookup_var st (size_defining_field info))
      as [[len | s | raw | u | p | t] |]; try discriminate Hnext.
    set (st1 := if (len <? min_size info)%N || (max_size info <? len)%N
                then _ else _) in *.
    destruct (buffer_len buffer <? offset st1 + len)%N eqn:Hlen;
      [discriminate Hnext |].
    rewrite (bounds_check_app _ extra _ Hlen).
    rewrite tvb_range_app by now apply N.ltb_ge. exact Hnext. }
  destruct (field_type info);
    try (destruct (is_dynamic_array info); [exact Hdynamic | exact Hfixed]).
  unfold dpi_bitfield. intros Hnext.
  destruct (buffer_len buffer <? offset st + min_size info)%N eqn:Hlen;
    [discriminate Hnext |].
  rewrite (bounds_check_app _ extra _ Hlen).
  rewrite tvb_range_app by now apply N.ltb_ge. exact Hnext.
Qed.

Lemma static_field_app (buffer extra : list byte)
    (field : string * FieldInfo) (st st' : DState) :
  static_field buffer field st = SNext st' ->
  static_field (buffer ++ extra) field st = SNext st'.
Proof.
  destruct field as [field_name info]. unfold static_field.
  assert (Hfixed : static_fixed buffer field_name info st = SNext st' ->
                   static_fixed (buffer ++ extra) field_name info st
                   = SNext st').
  { unfold static_fixed. intros Hnext.
    destruct (buffer_len buffer <? offset st + min_size info)%N eqn:Hlen;
      [discriminate Hnext |].
    rewrite (bounds_check_app _ extra _ Hlen).
    rewrite tvb_range_app by now apply N.ltb_ge. exact Hnext. }
  assert (Hdynamic : static_dynamic buffer field_name info st = SNext st' ->
                     static_dynamic (buffer ++ extra) field_name info st
                     = SNext st').
  { unfold static_dynamic. intros Hnext.
    destruct (lookup_var st (size_defining_field info))
      as [[len | s | raw | u | p | t] |]; try discriminate Hnext.
    destruct ((len <? min_size info)%N || (max_size info <? len)%N);
      [discriminate Hnext |].
    cbn [offset declare] in *.
    destruct (buffer_len buffer <? offset st + len)%N eqn:Hlen;
      [discriminate Hnext |].
    rewrite (bounds_check_app _ extra _ Hlen).
    rewrite tvb_range_app by now apply N.ltb_ge. exact Hnext. }
  destruct (field_type info);
    try (destruct (is_dynamic_array info); [exact Hdynamic | exact Hfixed]).
  unfold static_bitfield. intros Hnext.
  destruct (buffer_len buffer <? offset st + min_size info)%N eqn:Hlen;
    [discriminate Hnext |].
  rewrite (bounds_check_app _ extra _ Hlen).
  rewrite tvb_range_app by now apply N.ltb_ge. exact Hnext.
Qed.

Lemma run_fields_app (block block' : string * FieldInfo -> DState -> Step) :
  (forall field st st', block field st = SNext st' ->
                        block' field st = SNext st') ->
  forall fields st st',
    run_fields block fields st = SNext st' ->
    run_fields block' fields st = SNext st'.
Proof.
  intros Hblock fields.
  induction fields as [| field rest IH]; intros st st' Hrun;
    [exact Hrun |].
  cbn [run_fields] in *.
  destruct (block field st) as [st1 | st1 | st1 e |] eqn:Hstep;
    try discriminate Hrun.
  rewrite (Hblock _ _ _ Hstep). now apply IH.
Qed.

(** X7: Bytes that follow the last field are ignored: a per-IP decode that runs
    through all its fields ends in the same state, with the same Info text,
    on any longer buffer that starts with the same bytes. *)
Theorem trailing_bytes_ignored (host : LuaHost) (buffer extra : list byte)
    (fields : FieldList) (st : DState) (info : string) :
  dpi_dissector host buffer fields = Finished st info ->
  dpi_dissector host (buffer ++ extra) fields = Finished st info.
Proof.
  unfold dpi_dissector. intros Hrun.
  destruct (buffer_len buffer =? 0)%N eqn:Hlen; [discriminate Hrun |].
  apply N.eqb_neq in Hlen.
  assert ((buffer_len (buffer ++ extra) =? 0)%N = false) as ->
    by (apply N.eqb_neq; rewrite buffer_len_app; lia).
  destruct (run_fields (dpi_field host buffer) fields initial_state)
    as [st1 | st1 | st1 e |] eqn:Hfields; try discriminate Hrun.
  rewrite (run_fields_app _ (dpi_field host (buffer ++ extra))
             (dpi_field_app host buffer extra) _ _ _ Hfields).
  exact Hrun.
Qed.

(** On the two-field description followed by two more bytes. *)
Lemma trailing_bytes_ignored_witness :
  exists st,
    dpi_dissector nan_host ([x00; x05; x07] ++ [xde; xad]) seq_flags
    = Finished st "flags=00000111, seq=5".
Proof.
  eexists.
  apply (trailing_bytes_ignored nan_host [x00; x05; x07] [xde; xad]
           seq_flags).
  reflexivity.
Defined.

(** X8: The same holds of the static dissector. *)
Theorem static_trailing_bytes_ignored (host : LuaHost)
    (buffer extra : list byte) (fields : FieldList) (st : DState)
    (info : string) :
  static_dissector host buffer fields = Finished st info ->
  static_dissector host (buffer ++ extra) fields = Finished st info.
Proof.
  unfold static_dissector. intros Hrun.
  destruct (buffer_len buffer =? 0)%N eqn:Hlen; [discriminate Hrun |].
  apply N.eqb_neq in Hlen.
  assert ((buffer_len (buffer ++ extra) =? 0)%N = false) as ->
    by (apply N.eqb_neq; rewrite buffer_len_app; lia).
  destruct (run_fields (static_field buffer) fields initial_state)
    as [st1 | st1 | st1 e |] eqn:Hfields; try discriminate Hrun.
  rewrite (run_fields_app _ (static_field (buffer ++ extra))
             (static_field_app buffer extra) _ _ _ Hfields).
  exact Hrun.
Qed.

(** On the length-prefixed description followed by one more byte. *)
Lemma static_trailing_bytes_ignored_witness :
  exists st,
    static_dissector nan_host ([x03; x61; x62; x63] ++ [x00]) len_payload
    = Finished st "Static: len=3, payload=abc".
Proof.
  eexists.
  apply (static_trailing_bytes_ignored nan_host [x03; x61; x62; x63] [x00]
           len_payload).
  reflexivity.
Defined.

(** ** Expert infos and messages of the per-IP dissector *)

Lemma diagnostics_match_frame (st st' : DState) :
  error_messages st' = error_messages st ->
  expert st' = expert st ->
  diagnostics_match st -> diagnostics_match st'.
Proof. unfold diagnostics_match. intros -> ->. tauto. Qed.

Lemma diagnostics_match_report (k : ErrKind) (expert_msg msg : string)
    (st : DState) :
  k <> InsufficientBytes ->
  diagnostics_match st ->
  diagnostics_match
    (insert_message msg (set_dpi_error (add_expert k expert_msg st))).
Proof.
  unfold diagnostics_match. cbn. intros Hk [Hlen Hall].
  rewrite !length_app, Hlen. split; [reflexivity |].
  apply Forall_app. split; [exact Hall | now apply Forall_cons].
Qed.

Lemma dpi_field_diagnostics (host : LuaHost) (buffer : list byte)
    (field : string * FieldInfo) (st st' : DState) :
  dpi_field host buffer field st = SNext st' ->
  diagnostics_match st -> diagnostics_match st'.
Proof.
  destruct field as [field_name info]. unfold dpi_field.
  assert (Hfixed : dpi_fixed host buffer field_name info st = SNext st' ->
                   diagnostics_match st -> diagnostics_match st').
  { unfold dpi_fixed. intros Hnext Hst.
    destruct (buffer_len buffer <? offset st + min_size info)%N;
      [discriminate Hnext |].
    destruct (read_field field_name info _ st) as [e | [v st1]] eqn:Hread;
      [discriminate Hnext |].
    apply read_field_inr in Hread as (_ & _ & _ & Herr & Hexp & _).
    apply decompose_next in Hnext as (_ & _ & Herr' & Hexp' & _).
    cbn [error_messages expert advance] in Herr', Hexp'.
    eapply diagnostics_match_frame; [exact Herr' | exact Hexp' |].
    assert (Hst1 : diagnostics_match
                     (store field_name v
                        (declare (field_name +:+ "_item") None st1)))
      by now apply (diagnostics_match_frame st).
    unfold dpi_range_check.
    destruct (min_value info), (max_value info); try exact Hst1.
    destruct (range_checked (field_type info) && out_of_range host v z z0);
      [| exact Hst1].
    now apply diagnostics_match_report. }
  assert (Hdynamic : dpi_dynamic buffer field_name info st = SNext st' ->
                     diagnostics_match st -> diagnostics_match st').
  { unfold dpi_dynamic. intros Hnext Hst.
    destruct (lookup_var st (size_defining_field info))
      as [[len | s | raw | u | p | t] |]; try discriminate Hnext.
    set (st1 := if (len <? min_size info)%N || (max_size info <? len)%N
                then _ else _) in Hnext.
    assert (Hst1 : diagnostics_match st1).
    { subst st1.
      destruct ((len <? min_size info)%N || (max_size info <? len)%N).
      - apply diagnostics_match_report; [discriminate |].
        now apply (diagnostics_match_frame st).
      - now apply (diagnostics_match_frame st). }
    destruct (buffer_len buffer <? offset st1 + len)%N;
      [discriminate Hnext |].
    destruct (read_field field_name info _ st1) as [e | [v st2]] eqn:Hread;
      [discriminate Hnext |].
    apply read_field_inr in Hread as (_ & _ & _ & Herr & Hexp & _).
    apply decompose_next in Hnext as (_ & _ & Herr' & Hexp' & _).
    cbn [error_messages expert advance store declare] in Herr', Hexp'.
    apply (diagnostics_match_frame st1); congruence. }
  destruct (field_type info);
    try (destruct (is_dynamic_array info); [exact Hdynamic | exact Hfixed]).
  intros Hnext [Hlen Hall].
  apply dpi_bitfield_next in Hnext
    as (_ & raw & _ & _ & _ & Herr & Hexp & _).
  unfold diagnostics_match. rewrite Herr, Hexp, !length_app, Hlen.
  destruct (count_differs _ _).
  - split; [reflexivity |].
    apply Forall_app. split; [exact Hall | now repeat constructor].
  - split; [reflexivity | now rewrite app_nil_r].
Qed.

(** X9: In a per-IP decode that runs through all its fields, the expert infos
    are those of the field blocks, one for each message in [error_messages]
    and none of them about missing bytes, followed, exactly when a message
    was recorded, by the closing "DPI Error in this packet". *)
Theorem finished_diagnostics (host : LuaHost) (buffer : list byte)
    (fields : FieldList) (st : DState) (info : string) :
  dpi_dissector host buffer fields = Finished st info ->
  exists field_infos,
    expert st
    = (field_infos
       ++ match error_messages st with
          | [] => []
          | _ :: _ => [(ProtocolError, "DPI Error in this packet")]
          end)%list
    /\ length (error_messages st) = length field_infos
    /\ Forall (fun d => fst d <> InsufficientBytes) field_infos.
Proof.
  unfold dpi_dissector. intros Hrun.
  destruct (buffer_len buffer =? 0)%N; [discriminate Hrun |].
  destruct (run_fields (dpi_field host buffer) fields initial_state)
    as [st1 | st1 | st1 e |] eqn:Hfields; try discriminate Hrun.
  injection Hrun as <- _.
  assert (Hmatch : diagnostics_match st1).
  { eapply (run_fields_invariant diagnostics_match);
      [apply dpi_field_diagnostics | exact Hfields |].
    split; [reflexivity | constructor]. }
  assert (Hst : consistent st1).
  { eapply (run_fields_invariant consistent);
      [apply dpi_field_consistent | exact Hfields | apply consistent_initial]. }
  destruct Hmatch as [Hlen Hall]. exists (expert st1).
  destruct (dpi_final_frame st1) as (_ & _ & -> & _).
  split; [| split; assumption].
  unfold dpi_final, consistent in *.
  destruct (dpi_error st1), (error_messages st1) as [| msg msgs];
    cbn; rewrite ?app_nil_r; try reflexivity.
  - exfalso. now apply Hst.
  - assert (false = true) by (apply Hst; discriminate). discriminate.
Qed.

(** On a packet with a range error and a bit-count error. *)
Lemma finished_diagnostics_witness :
  exists st info field_infos,
    dpi_dissector nan_host [x00; x05; x03]
      [("seq", with_range 10 20 (field FT_int 2));
       ("flags", with_count 3 (field FT_bitfield 1))] = Finished st info
    /\ expert st
       = (field_infos ++ [(ProtocolError, "DPI Error in this packet")])%list
    /\ length (error_messages st) = length field_infos
    /\ Forall (fun d => fst d <> InsufficientBytes) field_infos.
Proof.
  eexists _, _.
  destruct (finished_diagnostics nan_host [x00; x05; x03]
              [("seq", with_range 10 20 (field FT_int 2));
               ("flags", with_count 3 (field FT_bitfield 1))] _ _ eq_refl)
    as (field_infos & H).
  exists field_infos. split; [reflexivity | exact H].
Defined.

(** The expert infos of that packet. *)
Example packet_flagged :
  diagnostics
    (dpi_dissector nan_host [x00; x05; x03]
       [("seq", with_range 10 20 (field FT_int 2));
        ("flags", with_count 3 (field FT_bitfield 1))])
  = [(ValueOutOfRange, "Value out of range for seq");
     (BitPopulationMismatch, "Bitfield flags expected 3 bits set, got 2");
     (ProtocolError, "DPI Error in this packet")].
Proof. reflexivity. Qed.

(** Where a run of blocks returns: at one of the fields, from a state the
    invariant of the blocks holds in. *)
Lemma run_fields_return (P : DState -> Prop)
    (block : string * FieldInfo -> DState -> Step) :
  (forall field st st', block field st = SNext st' -> P st -> P st') ->
  forall fields st st',
    run_fields block fields st = SReturn st' -> P st ->
    exists field st1,
      In field fields /\ P st1 /\ block field st1 = SReturn st'.
Proof.
  intros Hblock fields.
  induction fields as [| field rest IH]; intros st st' Hrun Hst;
    [discriminate Hrun |].
  cbn [run_fields] in Hrun.
  destruct (block field st) as [st1 | st1 | st1 e |] eqn:Hstep;
    try discriminate Hrun.
  - destruct (IH st1 st' Hrun (Hblock _ _ _ Hstep Hst))
      as (f & st2 & Hin & Hst2 & Hret).
    exists f, st2. split; [now right | split; assumption].
  - injection Hrun as <-. exists field, st.
    split; [now left | split; assumption].
Qed.

Lemma dpi_field_return_expert (host : LuaHost) (buffer : list byte)
    (field_name : string) (info : FieldInfo) (st st' : DState) :
  dpi_field host buffer (field_name, info) st = SReturn st' ->
  exists before,
    expert st' = (expert st ++ before
                  ++ [(InsufficientBytes, not_enough field_name)])%list
    /\ Forall (fun d => fst d <> InsufficientBytes) before.
Proof.
  unfold dpi_field.
  assert (Hfixed : dpi_fixed host buffer field_name info st = SReturn st' ->
                   exists before,
                     expert st'
                     = (expert st ++ before
                        ++ [(InsufficientBytes, not_enough field_name)])%list
                     /\ Forall (fun d => fst d <> InsufficientBytes) before).
  { unfold dpi_fixed. intros Hret.
    destruct (buffer_len buffer <? offset st + min_size info)%N.
    - injection Hret as <-. exists []. split; [reflexivity | constructor].
    - destruct (read_field field_name info _ st) as [e | [v st1]];
        [discriminate Hret |].
      now apply decompose_not_return in Hret. }
  assert (Hdynamic : dpi_dynamic buffer field_name info st = SReturn st' ->
                     exists before,
                       expert st'
                       = (expert st ++ before
                          ++ [(InsufficientBytes,
                               not_enough field_name)])%list
                       /\ Forall (fun d => fst d <> InsufficientBytes)
                                 before).
  { unfold dpi_dynamic. intros Hret.
    destruct (lookup_var st (size_defining_field info))
      as [[len | s | raw | u | p | t] |]; try discriminate Hret.
    destruct ((len <? min_size info)%N || (max_size info <? len)%N);
      cbn [offset declare insert_message set_dpi_error add_expert] in Hret.
    - destruct (buffer_len buffer <? offset st + len)%N.
      + injection Hret as <-. cbn.
        exists [(DynamicLengthOutOfRange, length_out_of_range field_name)].
        split; [now rewrite <- app_assoc |].
        now repeat constructor.
      + destruct (read_field _ _ _ _) as [e | [v st2]];
          [discriminate Hret |].
        now apply decompose_not_return in Hret.
    - destruct (buffer_len buffer <? offset st + len)%N.
      + injection Hret as <-. cbn. exists [].
        split; [reflexivity | constructor].
      + destruct (read_field _ _ _ _) as [e | [v st2]];
          [discriminate Hret |].
        now apply decompose_not_return in Hret. }
  destruct (field_type info);
    try (destruct (is_dynamic_array info); [exact Hdynamic | exact Hfixed]).
  intros Hret. apply dpi_bitfield_return_state in Hret as ->.
  exists []. split; [reflexivity | constructor].
Qed.

(** X10: A per-IP decode returns early only for missing bytes: the expert infos
    of an aborted call end with "Not enough bytes for <name>", for one of the
    declared fields, and no expert info before it is about missing bytes. *)
Theorem abort_only_for_missing_bytes (host : LuaHost) (buffer : list byte)
    (fields : FieldList) (st : DState) :
  dpi_dissector host buffer fields = Aborted st ->
  exists before field_name,
    In field_name (map fst fields)
    /\ expert st
       = (before ++ [(InsufficientBytes, not_enough field_name)])%list
    /\ Forall (fun d => fst d <> InsufficientBytes) before.
Proof.
  unfold dpi_dissector. intros Hrun.
  destruct (buffer_len buffer =? 0)%N; [discriminate Hrun |].
  destruct (run_fields (dpi_field host buffer) fields initial_state)
    as [st1 | st1 | st1 e |] eqn:Hfields; try discriminate Hrun.
  injection Hrun as <-.
  destruct (run_fields_return diagnostics_match (dpi_field host buffer)
              (dpi_field_diagnostics host buffer) fields initial_state st1
              Hfields)
    as ([field_name info] & st0 & Hin & [_ Hall] & Hret).
  { split; [reflexivity | constructor]. }
  apply dpi_field_return_expert in Hret as (before & Hexp & Hbefore).
  exists (expert st0 ++ before)%list, field_name.
  split; [apply in_map_iff; now exists (field_name, info) |].
  split; [now rewrite <- app_assoc |].
  apply Forall_app. now split.
Qed.

(** On a payload cut short, after a length out of range. *)
Lemma abort_only_for_missing_bytes_witness :
  exists st before field_name,
    dpi_dissector nan_host [x0b; x61] len_payload = Aborted st
    /\ In field_name ["len"; "payload"]
    /\ expert st
       = (before ++ [(InsufficientBytes, not_enough field_name)])%list
    /\ Forall (fun d => fst d <> InsufficientBytes) before.
Proof.
  eexists.
  destruct (abort_only_for_missing_bytes nan_host [x0b; x61] len_payload _
              eq_refl) as (before & field_name & H).
  exists before, field_name. split; [reflexivity | exact H].
Defined.

(** ** The static dissector against the per-IP dissector *)

Lemma decompose_same_values (field_name : string) (info : FieldInfo)
    (v : ParsedValue) (bits : N) (st st' st2 : DState) :
  decompose field_name info v bits st = SNext st' ->
  parsed_values st2 = parsed_values st ->
  exists st2',
    decompose field_name info v bits st2 = SNext st2'
    /\ parsed_values st2' = parsed_values st'
    /\ offset st2' = offset st2.
Proof.
  unfold decompose. intros Hnext Hval.
  destruct (decomposition_count info) as [count |].
  - destruct (bits mod count =? 0)%N; [| discriminate Hnext].
    destruct v; try discriminate Hnext.
    injection Hnext as <-. eexists. split; [reflexivity |].
    cbn. now rewrite Hval.
  - injection Hnext as <-. exists st2. now repeat split.
Qed.

(** On a field of fixed length the static block stores what the per-IP
    block stores, and moves the cursor as far. *)
Lemma static_field_follows (host : LuaHost) (buffer : list byte)
    (field : string * FieldInfo) (d d' s : DState) :
  fixed_length field ->
  dpi_field host buffer field d = SNext d' ->
  offset s = offset d ->
  parsed_values s = parsed_values d ->
  exists s',
    static_field buffer field s = SNext s'
    /\ offset s' = offset d'
    /\ parsed_values s' = parsed_values d'.
Proof.
  destruct field as [field_name info]. unfold fixed_length. cbn [snd].
  intros Hfixed Hnext Hoff Hval. unfold dpi_field in Hnext.
  unfold static_field.
  destruct (field_type info) eqn:Hty;
    try (destruct Hfixed as [Hbf | Hdyn]; [discriminate Hbf |];
         rewrite Hdyn in *;
         unfold dpi_fixed in Hnext; unfold static_fixed; rewrite Hoff;
         destruct (buffer_len buffer <? offset d + min_size info)%N;
           [discriminate Hnext |];
         unfold read_field in *;
         destruct (read_value (accessor info)
                     (tvb_range buffer (offset d) (min_size info)))
           as [e | v]; [discriminate Hnext |];
         pose proof (decompose_next _ _ _ _ _ _ Hnext) as (Hoff' & _);
         destruct (dpi_range_check_frame host field_name info v
                     (store field_name v
                        (declare (field_name +:+ "_item") None
                           (declare field_name (Some v)
                              (declare_bytes field_name info
                                 (tvb_range buffer (offset d) (min_size info))
                                 d)))))
           as (Ho & Hp & _);
         edestruct (decompose_same_values field_name info v
                      (min_size info * 8) _ d'
                      (advance (min_size info)
                         (store field_name v
                            (declare field_name (Some v)
                               (declare_bytes field_name info
                                  (tvb_range buffer (offset d)
                                     (min_size info)) s))))
                      Hnext)
           as (s' & Hs' & Hval' & Hoffs');
         [ cbn [parsed_values advance]; rewrite Hp;
           unfold declare_bytes; destruct (accessor info); cbn;
           now rewrite Hval
         | exists s'; split; [exact Hs' |]; split; [| exact Hval'];
           rewrite Hoffs', Hoff'; cbn [offset advance]; rewrite Ho;
           unfold declare_bytes; destruct (accessor info); cbn;
           now rewrite Hoff ]).
  unfold dpi_bitfield in Hnext. unfold static_bitfield. rewrite Hoff.
  destruct (buffer_len buffer <? offset d + min_size info)%N;
    [discriminate Hnext |].
  destruct (read_value _ _) as [e | [raw | t | f | raw | p | t0]];
    try discriminate Hnext.
  - injection Hnext as <-. eexists. split; [reflexivity |].
    unfold dpi_bit_count_test, static_bit_count_test.
    destruct (count_differs _ _); cbn; now rewrite Hoff, Hval.
  - destruct (raw =? 0)%N; discriminate Hnext.
Qed.

Lemma static_run_follows (host : LuaHost) (buffer : list byte)
    (fields : FieldList) :
  Forall fixed_length fields ->
  forall d d' s,
    run_fields (dpi_field host buffer) fields d = SNext d' ->
    offset s = offset d ->
    parsed_values s = parsed_values d ->
    exists s',
      run_fields (static_field buffer) fields s = SNext s'
      /\ offset s' = offset d'
      /\ parsed_values s' = parsed_values d'.
Proof.
  induction 1 as [| field rest Hfield _ IH]; intros d d' s Hrun Hoff Hval.
  - injection Hrun as <-. exists s. now repeat split.
  - cbn [run_fields] in *.
    destruct (dpi_field host buffer field d) as [d1 | d1 | d1 e |] eqn:Hstep;
      try discriminate Hrun.
    destruct (static_field_follows host buffer field d d1 s Hfield Hstep
                Hoff Hval) as (s1 & Hs1 & Hoff1 & Hval1).
    rewrite Hs1. now apply (IH d1).
Qed.

(** X11: For a description without dynamic arrays: whenever the per-IP decode runs
    through all its fields, so does the static one, with the same values and
    the same cursor; and when the per-IP decode recorded no error, the static
    Info text is the per-IP Info text after the prefix "Static: ". *)
Theorem static_agrees_with_dpi (host : LuaHost) (buffer : list byte)
    (fields : FieldList) (st : DState) (info : string) :
  Forall fixed_length fields ->
  dpi_dissector host buffer fields = Finished st info ->
  exists st_s info_s,
    static_dissector host buffer fields = Finished st_s info_s
    /\ parsed_values st_s = parsed_values st
    /\ offset st_s = offset st
    /\ (error_messages st = [] -> info_s = "Static: " +:+ info).
Proof.
  unfold dpi_dissector, static_dissector. intros Hfields Hrun.
  destruct (buffer_len buffer =? 0)%N; [discriminate Hrun |].
  destruct (run_fields (dpi_field host buffer) fields initial_state)
    as [st1 | st1 | st1 e |] eqn:Hdpi; try discriminate Hrun.
  injection Hrun as <- <-.
  destruct (static_run_follows host buffer fields Hfields initial_state st1
              initial_state Hdpi eq_refl eq_refl)
    as (s' & Hs' & Hoff & Hval).
  rewrite Hs'. exists s', (static_info host s').
  destruct (dpi_final_frame st1) as (-> & _ & -> & -> & _).
  split; [reflexivity |]. split; [exact Hval |]. split; [exact Hoff |].
  intros Herr.
  assert (Hst : consistent st1).
  { eapply (run_fields_invariant consistent);
      [apply dpi_field_consistent | exact Hdpi | apply consistent_initial]. }
  unfold static_info, dpi_info, consistent in *. rewrite Hval.
  destruct (dpi_error st1); [| reflexivity].
  exfalso. now apply Hst.
Qed.

(** On the two-field description and a packet with three set bits. *)
Lemma static_agrees_with_dpi_witness :
  exists st_s,
    static_dissector nan_host [x00; x05; x07] seq_flags
    = Finished st_s "Static: flags=00000111, seq=5"
    /\ offset st_s = 3%N.
Proof.
  destruct (static_agrees_with_dpi nan_host [x00; x05; x07] seq_flags _ _
              ltac:(constructor;
                      [right; reflexivity
                      | constructor; [left; reflexivity | constructor]])
              eq_refl)
    as (st_s & info_s & Hrun & _ & Hoff & Hinfo).
  specialize (Hinfo eq_refl). subst info_s.
  exists st_s. split; [exact Hrun | exact Hoff].
Defined.

(** ** More on bitfields *)

Lemma bitsum_le (x : N) (n : nat) : (bitsum x n <= N.of_nat n)%N.
Proof.
  induction n as [| n IH]; [reflexivity |].
  cbn [bitsum]. destruct (N.testbit x (N.of_nat n)); lia.
Qed.

(** [popcount] never exceeds the number of bits. *)
Lemma popcount_le_bits (x bits : N) :
  (x < 2 ^ bits)%N -> (popcount x <= bits)%N.
Proof.
  intros Hx. rewrite <- (N2Nat.id bits) in Hx.
  rewrite (popcount_bitsum _ _ Hx).
  pose proof (bitsum_le x (N.to_nat bits)). lia.
Qed.

(** X12: A bitfield of 1 to 4 bytes whose [bitfields_count] is missing, or
    larger than its number of bits, fails its test on every packet: whatever
    the bytes, the mismatch message is appended and [dpi_error] is set. *)
Theorem impossible_count_always_mismatches (host : LuaHost)
    (buffer : list byte) (field_name : string) (info : FieldInfo)
    (st : DState) :
  field_type info = FT_bitfield ->
  (1 <= min_size info <= 4)%N ->
  (offset st + min_size info <= buffer_len buffer)%N ->
  (forall c, bitfields_count info = Some c -> (min_size info * 8 < c)%N) ->
  let raw := be_uint (tvb_range buffer (offset st) (min_size info)) in
  exists st',
    dpi_field host buffer (field_name, info) st = SNext st'
    /\ error_messages st'
       = (error_messages st
          ++ [bit_mismatch field_name (bitfields_count info)
                (popcount raw)])%list
    /\ dpi_error st' = true.
Proof.
  intros Hty Hsize Hlen Hcount raw.
  destruct (dpi_bitfield_runs buffer field_name info st Hsize Hlen)
    as (st' & Hrun & _ & _ & Herr & _ & Hflag).
  fold raw in Herr, Hflag.
  assert (Hdiff : count_differs (popcount raw) (bitfields_count info) = true).
  { unfold count_differs.
    destruct (bitfields_count info) as [c |] eqn:Hc; [| reflexivity].
    specialize (Hcount c eq_refl).
    assert (popcount raw <= min_size info * 8)%N.
    { apply popcount_le_bits. subst raw.
      pose proof (be_uint_bound
                    (tvb_range buffer (offset st) (min_size info))) as Hb.
      rewrite tvb_range_length in Hb by exact Hlen.
      now rewrite N.mul_comm. }
    apply negb_true_iff, N.eqb_neq. lia. }
  rewrite Hdiff in Herr, Hflag.
  exists st'. unfold dpi_field. rewrite Hty.
  split; [exact Hrun |]. split; [exact Herr |].
  rewrite Hflag. apply orb_true_r.
Qed.

(** On a one-byte bitfield asked to have nine bits set. *)
Lemma impossible_count_always_mismatches_witness :
  exists st',
    dpi_field nan_host [xff] ("flags", with_count 9 (field FT_bitfield 1))
      initial_state = SNext st'
    /\ error_messages st' = ["Bitfield flags expected 9 bits set, got 8"]
    /\ dpi_error st' = true.
Proof.
  apply (impossible_count_always_mismatches nan_host [xff] "flags"
           (with_count 9 (field FT_bitfield 1)) initial_state).
  - reflexivity.
  - split; vm_compute; discriminate.
  - vm_compute. discriminate.
  - intros c Hc. injection Hc as <-. reflexivity.
Defined.

(** X18: A bitfield of [W] bytes, [W] from 1 to 4, whose bytes are in the buffer
    stores, whether or not the count matches, a text of [W * 8] binary
    digits, the most significant bit first, whose number of ["1"]s is the
    population count of the raw value; the mismatch message is appended
    exactly when that count differs from the declared [bitfields_count], and
    the dissector goes on to the next field. *)
Theorem narrow_bitfield_text (host : LuaHost) (buffer : list byte)
    (field_name : string) (info : FieldInfo) (st : DState) :
  field_type info = FT_bitfield ->
  (1 <= min_size info <= 4)%N ->
  (offset st + min_size info <= buffer_len buffer)%N ->
  let raw := be_uint (tvb_range buffer (offset st) (min_size info)) in
  let bits := N.to_nat (min_size info * 8) in
  exists st' s,
    dpi_field host buffer (field_name, info) st = SNext st'
    /\ parsed_values st' !! field_name = Some (PStr s)
    /\ String.length s = bits
    /\ (forall i, (i < bits)%nat ->
          String.get i s
          = Some (if N.testbit raw (N.of_nat (bits - 1 - i))
                  then "1"%char else "0"%char))
    /\ count_ones s = popcount raw
    /\ ((bitfields_count info = Some (popcount raw)
         /\ error_messages st' = error_messages st)
        \/ (bitfields_count info <> Some (popcount raw)
            /\ error_messages st'
               = (error_messages st
                  ++ [bit_mismatch field_name (bitfields_count info)
                        (popcount raw)])%list)).
Proof.
  intros Hty Hsize Hlen raw bits.
  destruct (dpi_bitfield_runs buffer field_name info st Hsize Hlen)
    as (st' & Hrun & _ & Hval & Herr & _).
  fold raw in Hval, Herr.
  exists st', (to_binary_str raw (min_size info * 8)).
  unfold dpi_field. rewrite Hty. split; [exact Hrun |].
  split; [rewrite Hval; apply lookup_insert_eq |].
  rewrite to_binary_str_digits by lia. fold bits.
  split; [apply binary_digits_length |].
  split; [intros i Hi; now apply binary_digits_get |].
  split.
  - rewrite binary_digits_ones. symmetry. apply popcount_bitsum.
    pose proof (be_uint_bound (tvb_range buffer (offset st) (min_size info)))
      as Hb.
    rewrite tvb_range_length in Hb by exact Hlen.
    subst bits. rewrite N2Nat.id, N.mul_comm. exact Hb.
  - rewrite Herr. unfold count_differs.
    destruct (bitfields_count info) as [c |].
    + destruct (N.eqb_spec (popcount raw) c) as [-> | Hne]; simpl.
      * left. split; [reflexivity | apply app_nil_r].
      * right. split; [congruence | reflexivity].
    + right. split; [discriminate | reflexivity].
Qed.

(** On the flags byte [03] after a 2-byte sequence number. *)
Lemma narrow_bitfield_text_witness :
  exists st' s,
    dpi_field nan_host [x00; x05; x03]
      ("flags", with_count 3 (field FT_bitfield 1))
      (advance 2 initial_state) = SNext st'
    /\ parsed_values st' !! "flags" = Some (PStr s)
    /\ String.length s = 8%nat
    /\ (forall i, (i < 8)%nat ->
          String.get i s
          = Some (if N.testbit 3 (N.of_nat (8 - 1 - i))
                  then "1"%char else "0"%char))
    /\ count_ones s = 2%N
    /\ ((Some 3%N = Some 2%N /\ error_messages st' = [])
        \/ (Some 3%N <> Some 2%N
            /\ error_messages st'
               = ["Bitfield flags expected 3 bits set, got 2"])).
Proof.
  apply (narrow_bitfield_text nan_host [x00; x05; x03] "flags"
           (with_count 3 (field FT_bitfield 1)) (advance 2 initial_state)).
  - reflexivity.
  - split; vm_compute; discriminate.
  - vm_compute. discriminate.
Defined.

(** ** Widths the accessors refuse *)

(** X19: An [int], [bool], [long] or bitfield of fixed length whose size is 0,
    5, 6, 7 or more than 8 bytes is never decoded: with its bytes in the
    buffer, its block raises at [:uint()] in both dissectors, before
    anything is stored or recorded. *)
Theorem unsupported_width_raises (host : LuaHost) (buffer : list byte)
    (field_name : string) (info : FieldInfo) (st : DState) :
  integer_like (field_type info) = true \/ field_type info = FT_bitfield ->
  field_type info = FT_bitfield \/ is_dynamic_array info = false ->
  (min_size info = 0 \/ 5 <= min_size info)%N ->
  min_size info <> 8%N ->
  (offset st + min_size info <= buffer_len buffer)%N ->
  dpi_field host buffer (field_name, info) st = SRaise st UnsupportedWidth
  /\ static_field buffer (field_name, info) st = SRaise st UnsupportedWidth.
Proof.
  intros Hty Hfixed Hsize H8 Hlen.
  pose proof (read_uint_refused buffer (offset st) (min_size info)
                Hsize H8 Hlen) as Hread.
  pose proof Hlen as Hlen'. apply N.ltb_ge in Hlen'.
  unfold dpi_field, static_field.
  destruct (field_type info) eqn:Hft;
    try (destruct Hty as [Hty | Hty]; discriminate Hty);
    try (destruct Hfixed as [Hbf | Hdyn]; [discriminate Hbf |];
         rewrite Hdyn; unfold dpi_fixed, static_fixed, read_field;
         rewrite Hlen';
         rewrite integer_accessor by (left; now rewrite Hft);
         now rewrite Hread).
  unfold dpi_bitfield, static_bitfield. rewrite Hlen'. now rewrite Hread.
Qed.

(** On a 6-byte [int]. *)
Lemma unsupported_width_raises_witness :
  dpi_field nan_host [x00; x00; x00; x00; x00; x2a]
    ("id", field FT_int 6) initial_state
  = SRaise initial_state UnsupportedWidth
  /\ static_field [x00; x00; x00; x00; x00; x2a]
       ("id", field FT_int 6) initial_state
     = SRaise initial_state UnsupportedWidth.
Proof.
  apply (unsupported_width_raises nan_host [x00; x00; x00; x00; x00; x2a]
           "id" (field FT_int 6) initial_state).
  - left; reflexivity.
  - right; reflexivity.
  - right. vm_compute. discriminate.
  - discriminate.
  - vm_compute. discriminate.
Defined.

(** X20: A fixed-length [long] that is decoded holds the unsigned value of its
    bytes: a number read by [:uint()] from 1 to 4 bytes, under a field
    declared [int32], or a [UInt64] object read from 8 bytes, under a field
    declared [uint64].  No [long] is ever stored as a negative number. *)
Theorem long_stored_unsigned (host : LuaHost) (buffer : list byte)
    (field_name : string) (info : FieldInfo) (st st' : DState) :
  field_type info = FT_long ->
  is_dynamic_array info = false ->
  dpi_field host buffer (field_name, info) st = SNext st' ->
  let raw := be_uint (tvb_range buffer (offset st) (min_size info)) in
  ((1 <= min_size info <= 4)%N
   /\ proto_field_type info = PF_int32
   /\ parsed_values st' !! field_name = Some (PNum raw))
  \/ (min_size info = 8%N
      /\ proto_field_type info = PF_uint64
      /\ parsed_values st' !! field_name = Some (PU64 raw)).
Proof.
  intros Hty Hdyn Hnext raw.
  unfold dpi_field in Hnext. rewrite Hty, Hdyn in Hnext.
  apply dpi_fixed_next in Hnext as (Hlen & _ & v & Hv & Hval).
  pose proof (tvb_range_length buffer (offset st) (min_size info) Hlen)
    as Hbytes.
  unfold proto_field_type. rewrite Hty.
  rewrite integer_accessor in Hv by (left; now rewrite Hty).
  destruct (N.eqb_spec (min_size info) 8) as [H8 | H8];
    cbn [read_value] in Hv;
    destruct (_ && _) eqn:Hwidth; try discriminate Hv;
    injection Hv as <-.
  - right. now repeat split.
  - left. apply andb_true_iff in Hwidth as [H1 H4].
    apply Nat.leb_le in H1, H4. repeat split; try lia. exact Hval.
Qed.

(** On a 4-byte [long] holding [ff ff ff ff]. *)
Lemma long_stored_unsigned_witness :
  exists st',
    dpi_field nan_host [xff; xff; xff; xff] ("id", field FT_long 4)
      initial_state = SNext st'
    /\ proto_field_type (field FT_long 4) = PF_int32
    /\ parsed_values st' !! "id" = Some (PNum 4294967295).
Proof.
  eexists. split; [reflexivity |].
  destruct (long_stored_unsigned nan_host [xff; xff; xff; xff] "id"
              (field FT_long 4) initial_state _ eq_refl eq_refl eq_refl)
    as [(_ & Hproto & Hval) | (H8 & _)].
  - split; [exact Hproto | exact Hval].
  - discriminate H8.
Defined.

Lemma mod_pow2_succ (num : N) (n : nat) :
  (num mod 2 ^ N.of_nat (S n)
   = (if N.testbit num (N.of_nat n) then 2 ^ N.of_nat n else 0)
     + num mod 2 ^ N.of_nat n)%N.
Proof.
  rewrite Nat2N.inj_succ, N.pow_succ_r', (N.mul_comm 2).
  rewrite N.Div0.mod_mul_r, <- N.testbit_spec'.
  destruct (N.testbit num (N.of_nat n)); cbn [N.b2n]; lia.
Qed.

Lemma binary_digits_value (num : N) (n : nat) (acc : N) :
  fold_left (fun a c => (2 * a + (if Ascii.eqb c "1" then 1 else 0))%N)
            (list_ascii_of_string (binary_digits num n)) acc
  = (acc * 2 ^ N.of_nat n + num mod 2 ^ N.of_nat n)%N.
Proof.
  revert acc. induction n as [| n IH]; intros acc.
  - cbn. rewrite N.mod_1_r. lia.
  - cbn [binary_digits list_ascii_of_string fold_left].
    rewrite IH, band_rshift_testbit, mod_pow2_succ.
    rewrite Nat2N.inj_succ, N.pow_succ_r'.
    destruct (N.testbit num (N.of_nat n)); cbn [Ascii.eqb]; cbn; lia.
Qed.

(** X13: On a number below [2 ^ 32] and at most 32 bits, the text written by
    [to_binary_str] has [bits] characters and reads back, as a binary
    number, as the [bits] low bits of the number it was written from: as the
    number itself when that fits [bits] bits. *)
Theorem binary_text_round_trip (num bits : N) :
  (bits <= 32)%N ->
  (num < 2 ^ 32)%N ->
  String.length (to_binary_str num bits) = N.to_nat bits
  /\ binary_value (to_binary_str num bits) = (num mod 2 ^ bits)%N
  /\ ((num < 2 ^ bits)%N -> binary_value (to_binary_str num bits) = num).
Proof.
  intros Hbits _. rewrite to_binary_str_digits by exact Hbits.
  assert (Hval : binary_value (binary_digits num (N.to_nat bits))
                 = (num mod 2 ^ bits)%N).
  { unfold binary_value. rewrite binary_digits_value, N2Nat.id. lia. }
  split; [apply binary_digits_length |]. split; [exact Hval |].
  intros Hlt. rewrite Hval. now apply N.mod_small.
Qed.

(** On the flags value 3 written on 8 bits. *)
Lemma binary_text_round_trip_witness :
  (3 < 2 ^ 8)%N /\ binary_value (to_binary_str 3 8) = 3%N.
Proof.
  split; [reflexivity |].
  apply (binary_text_round_trip 3 8); [| | reflexivity];
    vm_compute; first [discriminate | reflexivity].
Defined.

(** Beyond 32 bits the text repeats: a shift count is taken modulo 32. *)
Example binary_text_wraps :
  to_binary_str 1 34 = "0100000000000000000000000000000001".
Proof. reflexivity. Qed.

(** ** Generation time *)

(** X14: The names registered in [<proto>.fields] by [generate_field_list] are
    the [local f_...] ProtoFields the declaration loop writes, in the same
    order: no registered field is undeclared and no declared one is left
    out.  Each declaration is the field's own, or a [uint8] sub-field. *)
Theorem registered_fields_are_declared (fields : FieldList) :
  map fst (declarations fields) = generate_field_list fields
  /\ Forall (fun d =>
               snd d = PF_uint8
               \/ exists field_name info,
                    In (field_name, info) fields
                    /\ d = ("f_" +:+ field_name, proto_field_type info))
            (declarations fields).
Proof.
  unfold declarations, generate_field_list. split.
  - induction fields as [| [field_name info] rest IH]; [reflexivity |].
    cbn [flat_map]. rewrite map_app, IH. f_equal.
    cbn [field_declarations map fst]. f_equal.
    destruct (field_type info), (decomposition_count info);
      try reflexivity; rewrite map_map; reflexivity.
  - apply Forall_forall. intros d Hd.
    apply list_elem_of_In, in_flat_map in Hd
      as ([field_name info] & Hin & Hd).
    cbn [field_declarations] in Hd. destruct Hd as [<- | Hd].
    + right. now exists field_name, info.
    + left.
      destruct (field_type info), (decomposition_count info);
        try contradiction Hd;
        apply in_map_iff in Hd as (i & <- & _); reflexivity.
Qed.

Lemma append_cancel_r (a b c : string) : a +:+ c = b +:+ c -> a = b.
Proof.
  revert b. induction a as [| x a IH]; intros b H.
  - destruct b as [| y b]; [reflexivity |].
    apply (f_equal String.length) in H.
    rewrite !length_append in H. cbn in H. lia.
  - destruct b as [| y b].
    + apply (f_equal String.length) in H.
      rewrite !length_append in H. cbn in H. lia.
    + change (String x (a +:+ c) = String y (b +:+ c)) in H.
      injection H as -> H. f_equal. now apply IH.
Qed.

Lemma ip_clean_inj (ip1 ip2 : string) :
  no_char "_" ip1 -> no_char "_" ip2 ->
  ip_clean ip1 = ip_clean ip2 -> ip1 = ip2.
Proof.
  unfold no_char. revert ip2.
  induction ip1 as [| c1 ip1 IH]; intros [| c2 ip2] H1 H2 Heq;
    try reflexivity; try discriminate Heq.
  cbn [ip_clean list_ascii_of_string] in *.
  apply Forall_cons in H1 as [Hc1 H1]. apply Forall_cons in H2 as [Hc2 H2].
  injection Heq as Hc Hrest. f_equal; [| now apply IH].
  destruct (Ascii.eqb_spec c1 "."), (Ascii.eqb_spec c2 "."); congruence.
Qed.

(** X15: File names of the generated dissectors.  The cleaned IP has no dot.
    For IPs written without underscores, different IPs get different files,
    so no per-IP dissector overwrites another; and the static dissector's
    file is never the file of a per-IP dissector. *)
Theorem dissector_files_distinct (protocol ip1 ip2 : string) :
  no_char "_" ip1 -> no_char "_" ip2 ->
  no_char "." (ip_clean ip1)
  /\ (filename protocol ip1 = filename protocol ip2 -> ip1 = ip2)
  /\ filename protocol ip1 <> static_filename protocol.
Proof.
  intros H1 H2. split; [| split].
  - unfold no_char. clear H1 H2.
    induction ip1 as [| c ip1 IH]; [constructor |].
    cbn [ip_clean list_ascii_of_string]. constructor; [| exact IH].
    destruct (Ascii.eqb_spec c "."); [discriminate | assumption].
  - unfold filename. intros Heq.
    apply String.app_inj in Heq.
    change (("_for_" +:+ ip_clean ip1) +:+ ".lua"
            = ("_for_" +:+ ip_clean ip2) +:+ ".lua") in Heq.
    apply append_cancel_r, String.app_inj in Heq.
    now apply ip_clean_inj.
  - unfold filename, static_filename. intros Heq.
    apply String.app_inj in Heq. discriminate Heq.
Qed.

(** On two IPs of one protocol. *)
Lemma dissector_files_distinct_witness :
  filename "modbus" "10.0.0.1" = "modbus_for_10_0_0_1.lua"
  /\ no_char "." (ip_clean "10.0.0.1")
  /\ (filename "modbus" "10.0.0.1" = filename "modbus" "10.0.0.2" ->
      "10.0.0.1" = "10.0.0.2")
  /\ filename "modbus" "10.0.0.1" <> static_filename "modbus".
Proof.
  split; [reflexivity |].
  apply (dissector_files_distinct "modbus" "10.0.0.1" "10.0.0.2");
    repeat constructor; discriminate.
Defined.

(** ** A length byte and its payload *)

Lemma item_name_fresh (x : string) : String.eqb x (x +:+ "_item") = false.
Proof.
  apply String.eqb_neq. intros H. apply (f_equal String.length) in H.
  rewrite length_append in H. cbn in H. lia.
Qed.

(** The variable of a decoded integer field holds its value for the blocks
    that follow. *)
Lemma length_field_block (host : LuaHost) (buffer : list byte)
    (len_name : string) (w : N) :
  (1 <= w <= 4)%N ->
  (w <= buffer_len buffer)%N ->
  let len := be_uint (tvb_range buffer 0 w) in
  exists st1,
    dpi_field host buffer (len_name, field FT_int w) initial_state = SNext st1
    /\ lookup_var st1 len_name = Some (PNum len)
    /\ offset st1 = w
    /\ parsed_values st1 = {[ len_name := PNum len ]}
    /\ error_messages st1 = []
    /\ dpi_error st1 = false.
Proof.
  intros Hsize Hw len. unfold dpi_field, dpi_fixed, read_field.
  cbn [field field_type is_dynamic_array min_size offset initial_state].
  rewrite N.add_0_l. pose proof Hw as Hw'. apply N.ltb_ge in Hw'.
  rewrite Hw'.
  rewrite integer_accessor by (left; reflexivity).
  cbn [field min_size].
  rewrite (read_uint_range buffer 0 w Hsize) by (rewrite N.add_0_l; exact Hw).
  fold len.
  eexists. split; [reflexivity |].
  unfold lookup_var, declare_bytes, accessor.
  cbn [field field_type min_size].
  destruct (w =? 8)%N; cbn; rewrite item_name_fresh, String.eqb_refl;
    repeat split.
Qed.

(** X16: A length field of 1 to 4 bytes followed by a text of that length
    decodes as a whole: when the length read lies within the payload's
    bounds and the buffer holds the payload, the decode finishes without
    error, the payload is the text of the bytes that follow the length
    field, and the cursor ends after them. *)
Theorem length_prefixed_decode (host : LuaHost) (buffer : list byte)
    (len_name payload_name : string) (w lo hi : N) :
  (1 <= w <= 4)%N ->
  let len := be_uint (tvb_range buffer 0 w) in
  (w + len <= buffer_len buffer)%N ->
  (lo <= len <= hi)%N ->
  exists st info,
    dpi_dissector host buffer (length_prefixed len_name payload_name w lo hi)
    = Finished st info
    /\ parsed_values st !! payload_name
       = Some (PText (tvb_range buffer w len))
    /\ (len_name <> payload_name ->
        parsed_values st !! len_name = Some (PNum len))
    /\ error_messages st = []
    /\ offset st = (w + len)%N.
Proof.
  intros Hsize len Hlen Hrange.
  assert (Hne : buffer <> []).
  { intros ->. unfold buffer_len in Hlen. cbn [length] in Hlen. lia. }
  destruct (length_field_block host buffer len_name w Hsize ltac:(lia))
    as (st1 & Hstep1 & Hlook & Hoff1 & Hval1 & Herr1 & Hflag1).
  fold len in Hlook, Hval1.
  unfold dpi_dissector, length_prefixed.
  rewrite (buffer_len_nonempty _ Hne).
  cbn [run_fields]. rewrite Hstep1.
  unfold dpi_field, dpi_dynamic, read_field, decompose, decomposition_count.
  cbn [dynamic field field_type is_dynamic_array min_size max_size
       size_defining_field bitfields_count accessor read_value].
  rewrite Hlook.
  assert (((len <? lo) || (hi <? len))%N = false) as ->
    by (apply orb_false_iff; split; apply N.ltb_ge; lia).
  cbn [offset declare]. rewrite Hoff1.
  assert ((buffer_len buffer <? w + len)%N = false) as ->
    by (apply N.ltb_ge; lia).
  eexists _, _. split; [reflexivity |].
  unfold dpi_final.
  cbn [parsed_values error_messages offset dpi_error advance store declare
       declare_bytes].
  unfold declare_bytes, accessor. cbn [dynamic field field_type].
  cbn [parsed_values error_messages offset dpi_error advance store declare].
  rewrite Hflag1.
  cbn [parsed_values error_messages offset advance store declare].
  rewrite Hval1, Herr1, Hoff1.
  split; [apply lookup_insert_eq |].
  split; [| split; reflexivity].
  intros Hdiff. rewrite lookup_insert_ne by congruence.
  apply lookup_singleton_eq.
Qed.

(** On the packet [03 'a' 'b' 'c']. *)
Lemma length_prefixed_decode_witness :
  exists st info,
    dpi_dissector nan_host [x03; x61; x62; x63]
      (length_prefixed "len" "payload" 1 1 10) = Finished st info
    /\ parsed_values st !! "payload" = Some (PText [x61; x62; x63])
    /\ ("len" <> "payload" -> parsed_values st !! "len" = Some (PNum 3))
    /\ error_messages st = []
    /\ offset st = 4%N.
Proof.
  apply (length_prefixed_decode nan_host [x03; x61; x62; x63]
           "len" "payload" 1 1 10).
  - split; vm_compute; discriminate.
  - vm_compute. discriminate.
  - split; vm_compute; discriminate.
Defined.

(** ** Descriptions of fixed-length fields *)

Lemma dpi_field_consumes (host : LuaHost) (buffer : list byte)
    (field : string * FieldInfo) (st : DState) :
  fixed_length field ->
  (forall st', dpi_field host buffer field st = SNext st' ->
               offset st' = (offset st + min_size (snd field))%N)
  /\ (forall st', dpi_field host buffer field st = SReturn st' ->
                  (buffer_len buffer < offset st + min_size (snd field))%N).
Proof.
  destruct field as [field_name info]. unfold fixed_length. cbn [snd].
  intros Hfixed. unfold dpi_field.
  destruct (field_type info) eqn:Hty;
    try (destruct Hfixed as [Hbf | Hdyn]; [discriminate Hbf |];
         rewrite Hdyn; split; intros st' H';
         [now apply dpi_fixed_next in H' as (_ & Hoff & _)
         | now apply dpi_fixed_return in H']).
  split; intros st' H'; [| now apply dpi_bitfield_return in H'].
  now apply dpi_bitfield_next in H' as (_ & raw & _ & Hoff & _).
Qed.

Lemma run_fields_consumes (host : LuaHost) (buffer : list byte)
    (fields : FieldList) :
  Forall fixed_length fields ->
  forall st,
    (forall st', run_fields (dpi_field host buffer) fields st = SNext st' ->
                 offset st' = (offset st + total_size fields)%N)
    /\ (forall st',
          run_fields (dpi_field host buffer) fields st = SReturn st' ->
          (buffer_len buffer < offset st + total_size fields)%N).
Proof.
  induction 1 as [| field rest Hfield _ IH]; intros st.
  - split; intros st' H'; [| discriminate H'].
    injection H' as <-. cbn. lia.
  - destruct (dpi_field_consumes host buffer field st Hfield)
      as [Hnext Hret].
    cbn [run_fields total_size fold_right].
    fold (total_size rest).
    destruct (dpi_field host buffer field st) as [st1 | st1 | st1 e |];
      split; intros st' H'; try discriminate H'.
    + apply IH in H'. rewrite H', (Hnext st1 eq_refl). lia.
    + apply IH in H'. rewrite (Hnext st1 eq_refl) in H'. lia.
    + specialize (Hret st1 eq_refl). lia.
Qed.

Lemma dpi_run_cursor (host : LuaHost) (buffer : list byte)
    (fields : FieldList) (st : DState) :
  run_fields (dpi_field host buffer) fields initial_state = SNext st ->
  (offset st <= buffer_len buffer)%N.
Proof.
  intros Hrun.
  eapply (run_fields_state_invariant
            (fun st => (offset st <= buffer_len buffer)%N));
    [apply dpi_field_cursor | rewrite Hrun; reflexivity | cbn; lia].
Qed.

(** X17: For a description without dynamic arrays the layout is fixed: a per-IP
    decode that finishes has consumed exactly the sum of the declared sizes,
    and one that returns early was given fewer bytes than that sum. *)
Theorem fixed_layout (host : LuaHost) (buffer : list byte)
    (fields : FieldList) (o : Outcome) :
  Forall fixed_length fields ->
  dpi_dissector host buffer fields = o ->
  match o with
  | Finished st _ =>
      offset st = total_size fields
      /\ (total_size fields <= buffer_len buffer)%N
  | Aborted _ => (buffer_len buffer < total_size fields)%N
  | _ => True
  end.
Proof.
  intros Hfields <-.
  pose proof (dpi_run_cursor host buffer fields) as Hcursor.
  unfold dpi_dissector in *.
  destruct (buffer_len buffer =? 0)%N; [exact I |].
  destruct (run_fields_consumes host buffer fields Hfields initial_state)
    as [Hnext Hret].
  destruct (run_fields (dpi_field host buffer) fields initial_state)
    as [st1 | st1 | st1 e |]; cbn [finish]; try exact I.
  - specialize (Hnext st1 eq_refl).
    cbn [offset initial_state] in Hnext. rewrite N.add_0_l in Hnext.
    destruct (dpi_final_frame st1) as (-> & _).
    split; [exact Hnext |].
    rewrite <- Hnext. now apply Hcursor.
  - specialize (Hret st1 eq_refl).
    cbn [offset initial_state] in Hret. now rewrite N.add_0_l in Hret.
Qed.

(** On the two-field description: three bytes finish, two do not. *)
Lemma fixed_layout_witness :
  (exists st info,
     dpi_dissector nan_host [x00; x05; x07] seq_flags = Finished st info
     /\ offset st = 3%N)
  /\ (exists st,
        dpi_dissector nan_host [x00; x05] seq_flags = Aborted st
        /\ (2 < total_size seq_flags)%N).
Proof.
  assert (Hfields : Forall fixed_length seq_flags).
  { constructor; [right; reflexivity |].
    constructor; [left; reflexivity | constructor]. }
  split.
  - eexists _, _. split; [reflexivity |].
    exact (proj1 (fixed_layout nan_host [x00; x05; x07] seq_flags _
                    Hfields eq_refl)).
  - eexists. split; [reflexivity |].
    exact (fixed_layout nan_host [x00; x05] seq_flags _ Hfields eq_refl).
Defined.
